(** * cfourier: reference DFT, iterative radix-2 FFT and the OpenCL dispatcher

    A shallow embedding of [cfourier.cc].  Integers of type [size_t],
    [int] and [cl_uint] are values of [Z] with their wrap-around
    written out.  The arithmetic of [float] and [std::complex<float>]
    is kept behind the interface [FloatOps]: every function below is
    written against that interface exactly as the C++ text combines
    the operators, so each theorem stated against the interface holds
    for whatever the operators compute; the instance [binary32] below
    interprets them in IEEE binary32, for the runs whose outcome is a
    matter of rounding.  Runs of the C++ code end in an
    [outcome]: a value, a failed [assert], undefined behaviour, a
    [fatal] abort, or a loop that has not finished within the given
    number of iterations.  The number [fuel] bounds the iterations of
    every [while] loop and of the loop of [reverse_bits], each loop on
    its own; a loop whose exit test already holds needs none. *)

From stdpp Require Import base list strings gmap.
From Stdlib Require Import ZArith Lia SpecFloat.
Open Scope Z_scope.

(** ** Outcomes of a run *)

Inductive outcome (A : Type) : Type :=
| Ok (a : A)            (* normal return *)
| AssertFail            (* assert(...) aborted the process *)
| Undefined             (* out-of-range access, shift out of range *)
| Fatal (msg : string)  (* fatal(msg): diagnostic, then abort() *)
| OutOfFuel.            (* a loop still running when the step budget ended *)
Arguments Ok {A} a.
Arguments AssertFail {A}.
Arguments Undefined {A}.
Arguments Fatal {A} msg.
Arguments OutOfFuel {A}.

#[global] Instance outcome_ret : MRet outcome := fun A a => Ok a.
#[global] Instance outcome_bind : MBind outcome := fun A B f m =>
  match m with
  | Ok a => f a
  | AssertFail => AssertFail
  | Undefined => Undefined
  | Fatal msg => Fatal msg
  | OutOfFuel => OutOfFuel
  end.

Definition assert (b : bool) : outcome unit :=
  if b then Ok tt else AssertFail.

(** [for (size_t i = first; i != first + count; ++i) body] *)
Fixpoint for_up {St : Type} (count : nat) (i : Z)
    (body : Z → St → outcome St) (st : St) : outcome St :=
  match count with
  | O => Ok st
  | S count' => st' ← body i st; for_up count' (i + 1) body st'
  end.

(** [for (size_t i = 0; i != n; ++i) body]; [n] is a [size_t], so [0 ≤ n]. *)
Definition for_range {St : Type} (n : Z)
    (body : Z → St → outcome St) (st : St) : outcome St :=
  for_up (Z.to_nat n) 0 body st.

(** ** Machine integers *)

(** [size_t] is 64 bits wide (LP64). *)
Definition wrap64 (z : Z) : Z := z mod 2 ^ 64.
(** [cl_uint] is 32 bits wide. *)
Definition wrap32 (z : Z) : Z := z mod 2 ^ 32.
(** Conversion of a [size_t] to the [int] parameter of [W] and [Q]. *)
Definition to_int (z : Z) : Z := (z + 2 ^ 31) mod 2 ^ 32 - 2 ^ 31.

(** ** Arrays: a buffer is a list, an element pointer is a buffer and an
    index into it.  Indices are [size_t] values, hence never negative. *)

Definition array_get {A : Type} (buf : list A) (i : Z) : outcome A :=
  match buf !! Z.to_nat i with
  | Some v => Ok v
  | None => Undefined
  end.

Definition array_set {A : Type} (buf : list A) (i : Z) (v : A) : outcome (list A) :=
  if decide (Z.to_nat i < length buf)%nat then Ok (<[Z.to_nat i := v]> buf)
  else Undefined.

(** ** reverse_bits (cfourier.cc 27-38) *)

Fixpoint reverse_bits_loop (fuel : nat) (i n max result : Z) : outcome Z :=
  if i =? max then Ok result
  else match fuel with
       | O => OutOfFuel
       | S fuel' =>
           let result := wrap64 (Z.shiftl result 1) in
           let result := Z.lor result (Z.land n 1) in
           let n := Z.shiftr n 1 in
           reverse_bits_loop fuel' (wrap64 (Z.shiftl i 1)) n max result
       end.

Definition reverse_bits (fuel : nat) (n max : Z) : outcome Z :=
  reverse_bits_loop fuel 1 n max 0.

Definition prop_reverse_bits (fuel : nat) (n max correct : Z) : outcome bool :=
  r ← reverse_bits fuel n max; Ok (r =? correct).

(** ** The arithmetic interface *)

Class FloatOps : Type := {
  Float : Type;                               (* typedef float Float *)
  Complex : Type;                             (* std::complex<Float> *)
  f_of_Z : Z → Float;                         (* (Float) k, integer to float *)
  f_two : Float;                              (* (Float) 2.0 *)
  f_half : Float;                             (* (Float) 0.5 *)
  f_pi : Float;                               (* (Float) M_PI *)
  f_div : Float → Float → Float;              (* x / y *)
  f_sqrt : Float → Float;                     (* sqrt(x) *)
  c_mk : Float → Float → Complex;             (* Complex(re, im) *)
  c_real : Complex → Float;                   (* std::real *)
  c_imag : Complex → Float;                   (* std::imag *)
  c_neg : Complex → Complex;                  (* -z *)
  c_conj : Complex → Complex;                 (* std::conj *)
  c_exp : Complex → Complex;                  (* exp(z) *)
  c_add : Complex → Complex → Complex;        (* z + w, z += w *)
  c_sub : Complex → Complex → Complex;        (* z - w *)
  c_mul : Complex → Complex → Complex;        (* z * w *)
  c_mulf : Complex → Float → Complex;         (* z * x *)
  f_mulc : Float → Complex → Complex;         (* x * z *)
  c_divf : Complex → Float → Complex;         (* z / x *)
}.

(** [typedef std::vector<Complex> Signal] *)
Abbreviation Signal := (list Complex) (only parsing).

Section Transforms.
Context `{FloatOps}.

(** [Complex(0, 0)], also the value of [Complex()] and of [Complex result = 0]. *)
Definition c_zero : Complex := c_mk (f_of_Z 0) (f_of_Z 0).
(** [static const Complex i(0, 1)] *)
Definition c_i : Complex := c_mk (f_of_Z 0) (f_of_Z 1).

(** cfourier.cc 112-115: [W(int k, int N)]; the callers pass [size_t]
    values, which the call converts to [int]. *)
Definition W (k N : Z) : Complex :=
  c_exp (c_divf (c_mulf (c_mulf (c_mulf (c_neg c_i) f_two) f_pi)
                        (f_of_Z (to_int k)))
                (f_of_Z (to_int N))).

(** cfourier.cc 117-120: [Q(int n, int N)] *)
Definition Q (n N : Z) : Complex :=
  c_exp (c_divf (c_mulf (c_mulf (c_mulf c_i f_two) f_pi)
                        (f_of_Z (to_int n)))
                (f_of_Z (to_int N))).

(** The size of a vector, a [size_t]. *)
Definition size {A : Type} (v : list A) : Z := Z.of_nat (length v).

(** [Signal result(n)]: [n] value-initialised elements. *)
Definition new_signal (n : Z) : Signal := replicate (Z.to_nat n) c_zero.

(** cfourier.cc 40-50: [operator-(Signal, Signal)] *)
Definition signal_sub (a b : Signal) : outcome Signal :=
  _ ← assert (size a =? size b);
  let result := new_signal (size a) in
  for_range (size result)
    (λ i result, x ← array_get a i; y ← array_get b i; array_set result i (c_sub x y))
    result.

(** cfourier.cc 52-55: [dot(Complex, Complex)] *)
Definition dot (a b : Complex) : Complex := c_mul a (c_conj b).

(** cfourier.cc 57-66: [dot(Signal, Signal)] *)
Definition dot_signal (a b : Signal) : outcome Complex :=
  _ ← assert (size a =? size b);
  for_range (size a)
    (λ i result, x ← array_get a i; y ← array_get b i; Ok (c_add result (dot x y)))
    c_zero.

(** cfourier.cc 68-83 *)
Definition dft (signal : Signal) : outcome Signal :=
  let result := new_signal (size signal) in
  for_range (size result)
    (λ k result,
      c ← for_range (size signal)
            (λ n c,
              x ← array_get signal n;
              Ok (c_add c (c_mul x (c_exp
                (c_divf (c_mulf (c_mulf (c_mulf (c_mulf (c_neg c_i) f_two) f_pi)
                                        (f_of_Z k)) (f_of_Z n))
                        (f_of_Z (size signal)))))))
            c_zero;
      array_set result k c)
    result.

(** cfourier.cc 85-100 *)
Definition idft (spectrum : Signal) : outcome Signal :=
  let result := new_signal (size spectrum) in
  for_range (size result)
    (λ n result,
      c ← for_range (size spectrum)
            (λ k c,
              x ← array_get spectrum k;
              Ok (c_add c (c_mul x (c_exp
                (c_divf (c_mulf (c_mulf (c_mulf (c_mulf c_i f_two) f_pi)
                                        (f_of_Z k)) (f_of_Z n))
                        (f_of_Z (size spectrum)))))))
            c_zero;
      array_set result n (c_divf c (f_of_Z (size spectrum))))
    result.

(** cfourier.cc 122-127: [dst] and [src] are different buffers. *)
Definition fft_init (fuel : nat) (dst src : list Complex) (N : Z)
    : outcome (list Complex) :=
  for_range N
    (λ i dst, r ← reverse_bits fuel i N; v ← array_get src r; array_set dst i v)
    dst.

(** cfourier.cc 129-141: the pointer [spectrum] is [buf] at index [base]. *)
Definition fft_step_spectrum (buf : list Complex) (base spectrumSize : Z)
    : outcome (list Complex) :=
  for_range (spectrumSize / 2)
    (λ i buf,
      let sample1 := i in
      let sample2 := i + spectrumSize / 2 in
      even ← array_get buf (base + sample1);
      odd ← array_get buf (base + sample2);
      buf ← array_set buf (base + sample1)
              (c_add even (c_mul (W sample1 spectrumSize) odd));
      array_set buf (base + sample2)
              (c_add even (c_mul (W sample2 spectrumSize) odd)))
    buf.

(** cfourier.cc 143-148 *)
Definition fft_step (buf : list Complex) (base transform_count sample_count : Z)
    : outcome (list Complex) :=
  for_range transform_count
    (λ transform buf,
      fft_step_spectrum buf (base + transform * sample_count) sample_count)
    buf.

(** The [while (transform_count >= 1)] loop of [fft]. *)
Fixpoint fft_stages (fuel : nat) (result : list Complex) (N transform_count : Z)
    : outcome (list Complex) :=
  if 1 <=? transform_count then
    match fuel with
    | O => OutOfFuel
    | S fuel' =>
        let sample_count := N / transform_count in
        result ← fft_step result 0 transform_count sample_count;
        fft_stages fuel' result N (Z.shiftr transform_count 1)
    end
  else Ok result.

(** cfourier.cc 150-167.  [&result[0]] and [&signal[0]] only form the
    addresses of the arrays; elements are accessed inside [fft_init] and
    [fft_step], none when [N] is 0. *)
Definition fft (fuel : nat) (signal : Signal) : outcome Signal :=
  let N := size signal in
  let result := new_signal N in
  result ← fft_init fuel result signal N;
  let transform_count := N / 2 in
  fft_stages fuel result N transform_count.

(** cfourier.cc 169-181 *)
Definition ifft_step (buf : list Complex) (base spectrumSize : Z)
    : outcome (list Complex) :=
  for_range (spectrumSize / 2)
    (λ i buf,
      let sample1 := i in
      let sample2 := i + spectrumSize / 2 in
      even ← array_get buf (base + sample1);
      odd ← array_get buf (base + sample2);
      buf ← array_set buf (base + sample1)
              (f_mulc f_half (c_add even (c_mul (Q sample1 spectrumSize) odd)));
      array_set buf (base + sample2)
              (f_mulc f_half (c_add even (c_mul (Q sample2 spectrumSize) odd))))
    buf.

(** The [while (sample_count <= N)] loop of [ifft]. *)
Fixpoint ifft_stages (fuel : nat) (result : list Complex)
    (N sample_count transform_count : Z) : outcome (list Complex) :=
  if sample_count <=? N then
    match fuel with
    | O => OutOfFuel
    | S fuel' =>
        _ ← assert (wrap64 (transform_count * sample_count) =? N);
        result ← for_range transform_count
                   (λ transform result,
                     ifft_step result (transform * sample_count) sample_count)
                   result;
        ifft_stages fuel' result N
          (wrap64 (Z.shiftl sample_count 1)) (Z.shiftr transform_count 1)
    end
  else Ok result.

(** cfourier.cc 183-206 *)
Definition ifft (fuel : nat) (spectrum : Signal) : outcome Signal :=
  let N := size spectrum in
  let result := new_signal N in
  result ← for_range N
             (λ i result,
               r ← reverse_bits fuel i N; v ← array_get spectrum r; array_set result i v)
             result;
  let sample_count := 2 in
  let transform_count := N / sample_count in
  ifft_stages fuel result N sample_count transform_count.

(** cfourier.cc 208-213: RMS of the error signal. *)
Definition error (a b : Signal) : outcome Float :=
  e ← signal_sub a b;
  d ← dot_signal e e;
  Ok (f_sqrt (f_div (c_real d) (f_of_Z (size e)))).

(** cfourier.cc 215-233: the residuals of the differential tests. *)
Definition prop_inverse_dft (test_signal : Signal) : outcome Float :=
  spectrum ← dft test_signal;
  back ← idft spectrum;
  error test_signal back.

Definition prop_inverse_fft (fuel : nat) (test_signal : Signal) : outcome Float :=
  spectrum ← fft fuel test_signal;
  back ← ifft fuel spectrum;
  error test_signal back.

Definition prop_dft_equal_fft (fuel : nat) (test_signal : Signal) : outcome Float :=
  expected ← dft test_signal;
  actual ← fft fuel test_signal;
  error expected actual.

Definition prop_idft_equal_ifft (fuel : nat) (test_signal : Signal) : outcome Float :=
  expected ← idft test_signal;
  actual ← ifft fuel test_signal;
  error expected actual.

(** cfourier.cc 235-256 *)
Definition prop_fft_is_decomposed_dft (test_signal : Signal) : outcome Float :=
  parts ← for_range (size test_signal / 2)
             (λ i (parts : list Complex * list Complex),
               x ← array_get test_signal (2 * i);
               y ← array_get test_signal (2 * i + 1);
               Ok (parts.1 ++ [x], parts.2 ++ [y]))
             ([], []);
  let even_samples := parts.1 in
  let odd_samples := parts.2 in
  even_spectrum ← dft even_samples;
  odd_spectrum ← dft odd_samples;
  let intermediate_spectrum := even_spectrum ++ odd_spectrum in
  intermediate_spectrum ←
    fft_step_spectrum intermediate_spectrum 0 (size intermediate_spectrum);
  expected ← dft test_signal;
  error expected intermediate_spectrum.

End Transforms.

(** ** The OpenCL dispatcher: class [Fourier] (cfourier.cc 465-789)

    The backend is the state of the three device buffers and of the
    arguments bound to the two kernels, together with the list of the calls
    made so far.  The kernels of [fourier.cl] are not part of this file of
    the repository: what they compute is a parameter.  Whether a backend
    call succeeds is a parameter as well; a failed call is [fatal]. *)

Inductive cl_mem : Type := m_x_mem | m_y1_mem | m_y2_mem.
Inductive cl_kernel : Type := m_init_kernel | m_step_kernel.
Inductive kernel_arg : Type := ArgMem (mem : cl_mem) | ArgUint (v : Z).

#[global] Instance cl_mem_eq_dec : EqDecision cl_mem.
Proof. solve_decision. Defined.

(** [cl_float2]: the two floats [s[0]], [s[1]]. *)
Abbreviation cl_float2 := (Float * Float)%type (only parsing).

Section Backend.
Context `{FloatOps}.

Inductive cl_call : Type :=
| clEnqueueWriteBuffer (mem : cl_mem) (cb : Z) (data : list cl_float2)
| clSetKernelArg (kernel : cl_kernel) (arg_index : Z) (arg : kernel_arg)
| clEnqueueNDRangeKernel (kernel : cl_kernel) (global_work_size : Z)
| clEnqueueReadBuffer (mem : cl_mem) (cb : Z)
| clFinish.

Record device : Type := Device {
  buffer : cl_mem → list cl_float2;
  init_args : gmap Z kernel_arg;
  step_args : gmap Z kernel_arg;
  calls : list cl_call;
}.

(** cfourier.cc 465-471 *)
Definition convert_to_float2 (dst : list cl_float2) (src : list Complex) (count : Z)
    : outcome (list cl_float2) :=
  for_range count
    (λ i dst, z ← array_get src i; array_set dst i (c_real z, c_imag z))
    dst.

(** cfourier.cc 473-478 *)
Definition convert_to_complex (dst : list Complex) (src : list cl_float2) (count : Z)
    : outcome (list Complex) :=
  for_range count
    (λ i dst, v ← array_get src i; array_set dst i (c_mk v.1 v.2))
    dst.

(** [std::vector<cl_float2> v(n)]: [n] zeroed elements. *)
Definition new_float2_vector (n : Z) : list cl_float2 :=
  replicate (Z.to_nat n) (f_of_Z 0, f_of_Z 0).

(** cfourier.cc 485-492 *)
Definition to_float2_vector (vec : list Complex) (count : Z)
    : outcome (list cl_float2) :=
  convert_to_float2 (new_float2_vector count) vec count.

End Backend.

(** The host transform [fft] of cfourier.cc 150-167, under the name the
    tests of the dispatcher call it by inside the class scope below. *)
Abbreviation cpu_fft := fft (only parsing).

Module Fourier.
Section Fourier.
Context `{FloatOps}.
(** What work-item [j] of the kernels [fft_init] and [fft_step] of
    [fourier.cl] writes to element [j] of the output buffer, given the
    input buffer and the integer argument (one work-item per output
    element: specification 4.3 and 6). *)
Variable kernel_init : list cl_float2 → Z → Z → cl_float2.
Variable kernel_step : list cl_float2 → Z → Z → cl_float2.
(** Whether the backend reports [CL_SUCCESS] for a call, given the calls
    made before it. *)
Variable cl_status : list cl_call → cl_call → bool.

(** A backend call: recorded when it succeeds, [fatal] otherwise. *)
Definition backend (c : cl_call) (msg : string) (d : device) : outcome device :=
  if cl_status (calls d) c
  then Ok (Device (buffer d) (init_args d) (step_args d) (calls d ++ [c]))
  else Fatal msg.

Definition write_buffer (mem : cl_mem) (data : list cl_float2) (d : device)
    : device :=
  Device (λ m, if decide (m = mem) then data else buffer d m)
         (init_args d) (step_args d) (calls d).

Definition bind_arg (kernel : cl_kernel) (arg_index : Z) (arg : kernel_arg)
    (d : device) : device :=
  match kernel with
  | m_init_kernel =>
      Device (buffer d) (<[arg_index := arg]> (init_args d)) (step_args d) (calls d)
  | m_step_kernel =>
      Device (buffer d) (init_args d) (<[arg_index := arg]> (step_args d)) (calls d)
  end.

(** The output buffer of a kernel run over work-items [0 .. n). *)
Definition kernel_output (kernel : cl_kernel) (n : Z) (src : list cl_float2) (v : Z)
    : list cl_float2 :=
  match kernel with
  | m_init_kernel => kernel_init src v <$> seqZ 0 n
  | m_step_kernel => kernel_step src v <$> seqZ 0 n
  end.

(** The effect of one kernel run: both kernels are bound to
    (input buffer, integer, output buffer). *)
Definition execute (kernel : cl_kernel) (global_work_size : Z) (d : device)
    : option device :=
  let args := match kernel with
              | m_init_kernel => init_args d
              | m_step_kernel => step_args d
              end in
  match args !! 0, args !! 1, args !! 2 with
  | Some (ArgMem src), Some (ArgUint v), Some (ArgMem dst) =>
      Some (write_buffer dst
              (kernel_output kernel global_work_size (buffer d src) v) d)
  | _, _, _ => None
  end.

(** cfourier.cc 774-777: [1 << m_sample_power], an [int] shift. *)
Definition sample_count (m_sample_power : Z) : outcome Z :=
  if m_sample_power <? 31 then Ok (2 ^ m_sample_power)
  else if m_sample_power =? 31 then Ok (wrap64 (- 2 ^ 31))
  else Undefined.

(** cfourier.cc 769-772; [sizeof(cl_float2)] is 8. *)
Definition byte_count (m_sample_power : Z) : outcome Z :=
  n ← sample_count m_sample_power; Ok (wrap64 (n * 8)).

(** cfourier.cc 707-729 *)
Definition set_arg (kernel : cl_kernel) (arg_index : Z) (arg : kernel_arg)
    (d : device) : outcome device :=
  d ← backend (clSetKernelArg kernel arg_index arg)
              "Could not set kernel argument." d;
  Ok (bind_arg kernel arg_index arg d).

(** cfourier.cc 686-705 *)
Definition run_kernel (m_sample_power : Z) (kernel : cl_kernel) (d : device)
    : outcome device :=
  global_work_size ← sample_count m_sample_power;
  d ← backend (clEnqueueNDRangeKernel kernel global_work_size)
              "Could not enqueue kernel." d;
  match execute kernel global_work_size d with
  | Some d => Ok d
  | None => Fatal "Could not enqueue kernel."
  end.

(** cfourier.cc 731-747 *)
Definition load (m_sample_power : Z) (mem : cl_mem) (buf : list cl_float2)
    (d : device) : outcome device :=
  n ← sample_count m_sample_power;
  _ ← assert (size buf =? n);
  cb ← byte_count m_sample_power;
  d ← backend (clEnqueueWriteBuffer mem cb buf) "Coule not write to buffer." d;
  Ok (write_buffer mem buf d).

(** cfourier.cc 749-767: the blocking read returns the buffer contents. *)
Definition store (m_sample_power : Z) (mem : cl_mem) (d : device)
    : outcome (list cl_float2 * device) :=
  cb ← byte_count m_sample_power;
  d ← backend (clEnqueueReadBuffer mem cb) "Could not read buffer." d;
  Ok (buffer d mem, d).

(** cfourier.cc 681-684 *)
Definition finish (d : device) : outcome device :=
  backend clFinish "Could not finish." d.

(** cfourier.cc 603-610 *)
Definition init (m_sample_power : Z) (x : cl_mem) (sample_power : Z) (y : cl_mem)
    (d : device) : outcome device :=
  d ← set_arg m_init_kernel 0 (ArgMem x) d;
  d ← set_arg m_init_kernel 1 (ArgUint sample_power) d;
  d ← set_arg m_init_kernel 2 (ArgMem y) d;
  run_kernel m_sample_power m_init_kernel d.

(** cfourier.cc 628-635 *)
Definition step (m_sample_power : Z) (y : cl_mem) (B : Z) (y_ : cl_mem)
    (d : device) : outcome device :=
  d ← set_arg m_step_kernel 0 (ArgMem y) d;
  d ← set_arg m_step_kernel 1 (ArgUint B) d;
  d ← set_arg m_step_kernel 2 (ArgMem y_) d;
  run_kernel m_sample_power m_step_kernel d.

(** The [while (B != sample_count())] loop of [Fourier::fft]; it returns
    the handle [y] and the device. *)
Fixpoint fft_loop (fuel : nat) (m_sample_power : Z) (y y_ : cl_mem) (B : Z)
    (d : device) : outcome (cl_mem * device) :=
  n ← sample_count m_sample_power;
  if B =? n then Ok (y, d)
  else match fuel with
       | O => OutOfFuel
       | S fuel' =>
           d ← step m_sample_power y B y_ d;
           fft_loop fuel' m_sample_power y_ y (wrap32 (Z.shiftl B 1)) d
       end.

(** cfourier.cc 653-674: [spectrum] is the caller's output array. *)
Definition fft (fuel : nat) (m_sample_power : Z)
    (spectrum signal : list Complex) (d : device)
    : outcome (list Complex * device) :=
  n ← sample_count m_sample_power;
  x_buffer ← to_float2_vector signal n;
  d ← load m_sample_power m_x_mem x_buffer d;
  d ← init m_sample_power m_x_mem (wrap32 m_sample_power) m_y1_mem d;
  let y := m_y1_mem in
  let y_ := m_y2_mem in
  let B := 1 in
  yd ← fft_loop fuel m_sample_power y y_ B d;
  n ← sample_count m_sample_power;
  rd ← store m_sample_power yd.1 yd.2;
  d ← finish rd.2;
  spectrum ← convert_to_complex spectrum rd.1 (size rd.1);
  Ok (spectrum, d).

(** *** The protocol of the specification (4.3) *)

(** The ping-pong pair: stage [j] reads [ping_pong j] and writes
    [ping_pong (j + 1)]. *)
Definition ping_pong (j : nat) : cl_mem :=
  if Nat.even j then m_y1_mem else m_y2_mem.

(** One dispatch: the three arguments, then the kernel over [n] items. *)
Definition dispatch (kernel : cl_kernel) (src : cl_mem) (v : Z) (dst : cl_mem)
    (n : Z) : list cl_call :=
  [clSetKernelArg kernel 0 (ArgMem src);
   clSetKernelArg kernel 1 (ArgUint v);
   clSetKernelArg kernel 2 (ArgMem dst);
   clEnqueueNDRangeKernel kernel n].

(** [Step] dispatches [first, first + 1, ...], [count] of them, stage [j]
    with [B = 2^j]. *)
Definition step_dispatches (n : Z) (first count : nat) : list cl_call :=
  j ← seq first count;
  dispatch m_step_kernel (ping_pong j) (2 ^ Z.of_nat j) (ping_pong (S j)) n.

(** The buffer after [Step] stages [first, ...], [count] of them. *)
Definition staged (n : Z) (y : list cl_float2) (first count : nat)
    : list cl_float2 :=
  foldl (λ y j, kernel_output m_step_kernel n y (2 ^ Z.of_nat j)) y
        (seq first count).

(** Upload, [Init], the [Step]s with [B = 1, 2, ..., N/2], download. *)
Definition transform_calls (m : nat) (x_buffer : list cl_float2) : list cl_call :=
  let n := 2 ^ Z.of_nat m in
  [clEnqueueWriteBuffer m_x_mem (n * 8) x_buffer]
  ++ dispatch m_init_kernel m_x_mem (Z.of_nat m) m_y1_mem n
  ++ step_dispatches n 0 m
  ++ [clEnqueueReadBuffer (ping_pong m) (n * 8); clFinish].

(** The kernels enqueued by a list of calls, in order. *)
Definition kernel_runs (cs : list cl_call) : list cl_kernel :=
  omap (λ c, match c with
             | clEnqueueNDRangeKernel kernel _ => Some kernel
             | _ => None
             end) cs.

(** The values bound to argument [B] of the [Step] kernel, in order. *)
Definition step_sizes (cs : list cl_call) : list Z :=
  omap (λ c, match c with
             | clSetKernelArg m_step_kernel 1 (ArgUint B) => Some B
             | _ => None
             end) cs.

(** cfourier.cc 612-626: [Fourier::init(Complex* dst, Complex const* src)],
    one [Init] dispatch with its upload and download. *)
Definition init_host (m_sample_power : Z) (dst src : list Complex) (d : device)
    : outcome (list Complex * device) :=
  n ← sample_count m_sample_power;
  x_buffer ← to_float2_vector src n;
  d ← load m_sample_power m_x_mem x_buffer d;
  d ← init m_sample_power m_x_mem (wrap32 m_sample_power) m_y1_mem d;
  n ← sample_count m_sample_power;
  rd ← store m_sample_power m_y1_mem d;
  d ← finish rd.2;
  dst ← convert_to_complex dst rd.1 (size rd.1);
  Ok (dst, d).

(** cfourier.cc 637-651: [Fourier::step(Complex* dst, Complex const* src,
    size_t B)], one [Step] dispatch with its upload and download. *)
Definition step_host (m_sample_power : Z) (dst src : list Complex) (B : Z)
    (d : device) : outcome (list Complex * device) :=
  n ← sample_count m_sample_power;
  y1_buffer ← to_float2_vector src n;
  d ← load m_sample_power m_y1_mem y1_buffer d;
  d ← step m_sample_power m_y1_mem (wrap32 B) m_y2_mem d;
  n ← sample_count m_sample_power;
  rd ← store m_sample_power m_y2_mem d;
  d ← finish rd.2;
  dst ← convert_to_complex dst rd.1 (size rd.1);
  Ok (dst, d).

(** cfourier.cc 807-818 *)
Definition prop_fftcl_init_equals_fft_init (fuel : nat) (m_sample_power : Z)
    (signal : Signal) (d : device) : outcome (Float * device) :=
  n ← sample_count m_sample_power;
  _ ← assert (n =? size signal);
  let expected := new_signal (size signal) in
  expected ← fft_init fuel expected signal (size expected);
  let actual := new_signal (size signal) in
  ad ← init_host m_sample_power actual signal d;
  residue ← error expected ad.1;
  Ok (residue, ad.2).

(** cfourier.cc 820-835 *)
Definition prop_fftcl_step_equals_fft_step (m_sample_power : Z)
    (signal : Signal) (d : device) : outcome (Float * device) :=
  n ← sample_count m_sample_power;
  _ ← assert (n =? size signal);
  let B := 128 in
  let transform_count := size signal / B in
  _ ← assert (1 <=? B);
  let expected := signal in
  expected ← fft_step expected 0 (transform_count / 2) (2 * B);
  let actual := new_signal (size signal) in
  ad ← step_host m_sample_power actual signal B d;
  residue ← error expected ad.1;
  Ok (residue, ad.2).

(** cfourier.cc 837-847 *)
Definition prop_fftcl_equals_fft (fuel : nat) (m_sample_power : Z)
    (signal : Signal) (d : device) : outcome (Float * device) :=
  n ← sample_count m_sample_power;
  _ ← assert (n =? size signal);
  expected ← cpu_fft fuel signal;
  let actual := new_signal (size signal) in
  ad ← fft fuel m_sample_power actual signal d;
  residue ← error expected ad.1;
  Ok (residue, ad.2).

(** *** Failing backend calls *)

(** The first call of [cs], made in order after the calls [h], that the
    backend does not answer with [CL_SUCCESS]. *)
Fixpoint first_failure (h cs : list cl_call) : option cl_call :=
  match cs with
  | [] => None
  | c :: cs => if cl_status h c then first_failure (h ++ [c]) cs else Some c
  end.

(** The text [fatal] prints for a failed call. *)
Definition failure_message (c : cl_call) : string :=
  match c with
  | clEnqueueWriteBuffer _ _ _ => "Coule not write to buffer."
  | clSetKernelArg _ _ _ => "Could not set kernel argument."
  | clEnqueueNDRangeKernel _ _ => "Could not enqueue kernel."
  | clEnqueueReadBuffer _ _ => "Could not read buffer."
  | clFinish => "Could not finish."
  end.

(** What a run that makes the calls [cs] after the calls [h] comes to:
    [fatal] with the text of the first failed call, or else, when every
    call succeeds, a result with the property [P]. *)
Definition outcome_after {A : Type} (h cs : list cl_call) (o : outcome A)
    (P : A → Prop) : Prop :=
  match first_failure h cs with
  | None => ∃ a, o = Ok a ∧ P a
  | Some c => o = Fatal (failure_message c)
  end.

(** The calls of the single-dispatch entry points. *)
Definition init_host_calls (m : nat) (x_buffer : list cl_float2) : list cl_call :=
  let n := 2 ^ Z.of_nat m in
  [clEnqueueWriteBuffer m_x_mem (n * 8) x_buffer]
  ++ dispatch m_init_kernel m_x_mem (Z.of_nat m) m_y1_mem n
  ++ [clEnqueueReadBuffer m_y1_mem (n * 8); clFinish].

Definition step_host_calls (m : nat) (y1_buffer : list cl_float2) (B : Z)
    : list cl_call :=
  let n := 2 ^ Z.of_nat m in
  [clEnqueueWriteBuffer m_y1_mem (n * 8) y1_buffer]
  ++ dispatch m_step_kernel m_y1_mem B m_y2_mem n
  ++ [clEnqueueReadBuffer m_y2_mem (n * 8); clFinish].

(** The host calling [Fourier::step] for stages [first, ...], [count] of
    them, each on the result of the one before. *)
Fixpoint step_host_chain (m_sample_power : Z) (first count : nat)
    (y : list Complex) (d : device) : outcome (list Complex * device) :=
  match count with
  | O => Ok (y, d)
  | S count' =>
      yd ← step_host m_sample_power (new_signal (size y)) y (2 ^ Z.of_nat first) d;
      step_host_chain m_sample_power (S first) count' yd.1 yd.2
  end.

End Fourier.
End Fourier.

(** ** Uninterpreted arithmetic

    The free instance of [FloatOps]: every operator builds the term that
    names it.  Concrete runs below are evaluated in this instance, where
    the result shows which operators were applied to what, in which
    order. *)

Inductive fterm : Type :=
| FofZ (z : Z)
| FTwo
| FHalf
| FPi
| FDiv (x y : fterm)
| FSqrt (x : fterm)
| FReal (z : cterm)
| FImag (z : cterm)
with cterm : Type :=
| CMk (re im : fterm)
| CNeg (z : cterm)
| CConj (z : cterm)
| CExp (z : cterm)
| CAdd (z w : cterm)
| CSub (z w : cterm)
| CMul (z w : cterm)
| CMulF (z : cterm) (x : fterm)
| FMulC (x : fterm) (z : cterm)
| CDivF (z : cterm) (x : fterm).

Definition symbolic : FloatOps := {|
  Float := fterm;
  Complex := cterm;
  f_of_Z := FofZ;
  f_two := FTwo;
  f_half := FHalf;
  f_pi := FPi;
  f_div := FDiv;
  f_sqrt := FSqrt;
  c_mk := CMk;
  c_real := FReal;
  c_imag := FImag;
  c_neg := CNeg;
  c_conj := CConj;
  c_exp := CExp;
  c_add := CAdd;
  c_sub := CSub;
  c_mul := CMul;
  c_mulf := CMulF;
  f_mulc := FMulC;
  c_divf := CDivF;
|}.

(** A real sample [x + 0i] of the free instance. *)
Definition sample (x : Z) : @Complex symbolic := CMk (FofZ x) (FofZ 0).

(** A device before the first call, and a kernel pair that copies the
    input element of each work-item: the concrete backend of the runs
    evaluated below. *)
Definition fresh_device : @device symbolic := Device (λ _, []) ∅ ∅ [].

Definition copy_kernel (src : list (fterm * fterm)) (v j : Z) : fterm * fterm :=
  default (FofZ 0, FofZ 0) (src !! Z.to_nat j).

(** ** Componentwise arithmetic

    A second instance: a complex number is its pair of floats, as
    [std::complex<float>] stores it, and the complex operators act on the
    parts; the float operators stay uninterpreted. *)

Inductive pfloat : Type :=
| PofZ (z : Z)
| PTwo
| PHalf
| PPi
| PDiv (x y : pfloat)
| PSqrt (x : pfloat)
| PNeg (x : pfloat)
| PAdd (x y : pfloat)
| PSub (x y : pfloat)
| PMul (x y : pfloat)
| PExpRe (re im : pfloat)
| PExpIm (re im : pfloat).

Definition componentwise : FloatOps := {|
  Float := pfloat;
  Complex := pfloat * pfloat;
  f_of_Z := PofZ;
  f_two := PTwo;
  f_half := PHalf;
  f_pi := PPi;
  f_div := PDiv;
  f_sqrt := PSqrt;
  c_mk := pair;
  c_real := fst;
  c_imag := snd;
  c_neg := λ z, (PNeg z.1, PNeg z.2);
  c_conj := λ z, (z.1, PNeg z.2);
  c_exp := λ z, (PExpRe z.1 z.2, PExpIm z.1 z.2);
  c_add := λ z w, (PAdd z.1 w.1, PAdd z.2 w.2);
  c_sub := λ z w, (PSub z.1 w.1, PSub z.2 w.2);
  c_mul := λ z w, (PSub (PMul z.1 w.1) (PMul z.2 w.2),
                   PAdd (PMul z.1 w.2) (PMul z.2 w.1));
  c_mulf := λ z x, (PMul z.1 x, PMul z.2 x);
  f_mulc := λ x z, (PMul x z.1, PMul x z.2);
  c_divf := λ z x, (PDiv z.1 x, PDiv z.2 x);
|}.

(** The sample [x + y i] of the componentwise instance. *)
Definition psample (x y : Z) : @Complex componentwise := (PofZ x, PofZ y).

Definition fresh_pdevice : @device componentwise := Device (λ _, []) ∅ ∅ [].

Definition copy_pkernel (src : list (pfloat * pfloat)) (v j : Z) : pfloat * pfloat :=
  default (PofZ 0, PofZ 0) (src !! Z.to_nat j).

(** A backend that refuses every download and answers every other call
    with [CL_SUCCESS]. *)
Definition read_fails (h : list (@cl_call symbolic)) (c : @cl_call symbolic) : bool :=
  match c with
  | clEnqueueReadBuffer _ _ => false
  | _ => true
  end.

(** ** IEEE binary32 arithmetic

    A third instance, for the runs whose outcome depends on rounding:
    [Float] is a binary32 number ([SpecFloat]: 24 bits of precision, round
    to nearest even), and [std::complex<float>] is the pair of its parts, on
    which the operators of [<complex>] act part by part. *)

Module Binary32.












End Binary32.






(** ** Specification-level notions *)

Definition power_of_two (n : Z) : Prop := ∃ k : Z, 0 ≤ k ∧ n = 2 ^ k.

(** The failure the specification asks for on a violated precondition:
    an assertion-style abort or a rejected call. *)
Definition precondition_failure {A : Type} (o : outcome A) : Prop :=
  match o with
  | AssertFail | Fatal _ => True
  | _ => False
  end.

(** The value whose low [k] bits are those of [n] in reverse order. *)
Fixpoint bitrev (k : nat) (n : Z) : Z :=
  match k with
  | O => 0
  | S k' => (n mod 2) * 2 ^ Z.of_nat k' + bitrev k' (n / 2)
  end.

Section StageSpec.
Context `{FloatOps}.

(** The value the forward butterfly writes at in-block index [k] of a
    block of size [S] (specification 4.2, step 2). *)
Definition forward_combine (k S : Z) (a b : Complex) : Complex :=
  c_add a (c_mul (W k S) b).

(** The value the inverse butterfly writes: twiddle [Q], then the factor
    0.5. *)
Definition inverse_combine (k S : Z) (a b : Complex) : Complex :=
  f_mulc f_half (c_add a (c_mul (Q k S) b)).

(** The common shape of [fft_step_spectrum] and [ifft_step]: one pass over
    the pairs of the block at [base], writing [g] of the pair. *)
Definition butterfly_pass (g : Z → Z → Complex → Complex → Complex)
    (buf : list Complex) (base S : Z) : outcome (list Complex) :=
  for_range (S / 2)
    (λ i buf,
      even ← array_get buf (base + i);
      odd ← array_get buf (base + (i + S / 2));
      buf ← array_set buf (base + i) (g i S even odd);
      array_set buf (base + (i + S / 2)) (g (i + S / 2) S even odd))
    buf.

(** Element [j] of the array after the first [c] pairs of the block at
    [base] have been combined. *)
Definition pass_at (g : Z → Z → Complex → Complex → Complex) (S : Z)
    (y : list Complex) (base c j : Z) : option Complex :=
  if decide (base ≤ j < base + c) then
    a ← y !! Z.to_nat j; b ← y !! Z.to_nat (j + S / 2);
    Some (g (j - base) S a b)
  else if decide (base + S / 2 ≤ j < base + S / 2 + c) then
    a ← y !! Z.to_nat (j - S / 2); b ← y !! Z.to_nat j;
    Some (g (j - base) S a b)
  else y !! Z.to_nat j.

(** Element [j] of the array after one whole stage of block size [S]: with
    [p = j mod S] the offset in the block, the lower half pairs with the
    element [S/2] above, the upper half with the element [S/2] below. *)
Definition stage_at (g : Z → Z → Complex → Complex → Complex) (S : Z)
    (y : list Complex) (j : Z) : option Complex :=
  let p := j mod S in
  if decide (p < S / 2) then
    a ← y !! Z.to_nat j; b ← y !! Z.to_nat (j + S / 2); Some (g p S a b)
  else if decide (p < 2 * (S / 2)) then
    a ← y !! Z.to_nat (j - S / 2); b ← y !! Z.to_nat j; Some (g p S a b)
  else y !! Z.to_nat j.

(** One stage over the whole array, as a function. *)
Definition stage (g : Z → Z → Complex → Complex → Complex) (S : Z)
    (y : list Complex) : list Complex :=
  imap (λ j v, default v (stage_at g S y (Z.of_nat j))) y.

(** The bit-reversal permutation of an array of [2^k] elements
    (specification 4.2, step 1). *)
Definition bit_reversal (k : nat) (x : list Complex) : list Complex :=
  imap (λ j v, default v (x !! Z.to_nat (bitrev k (Z.of_nat j)))) x.

(** Block sizes [2^first, 2^(first+1), ...], [count] of them. *)
Definition block_sizes (first : Z) (count : nat) : list Z :=
  (λ e, 2 ^ e) <$> seqZ first (Z.of_nat count).

(** The iterative transforms of [2^k] samples (specification 4.2):
    permutation, then the stages of block size 2, 4, ..., [2^k]. *)
Definition fft_spec (k : nat) (x : Signal) : Signal :=
  foldl (λ y S, stage forward_combine S y) (bit_reversal k x) (block_sizes 1 k).

Definition ifft_spec (k : nat) (x : Signal) : Signal :=
  foldl (λ y S, stage inverse_combine S y) (bit_reversal k x) (block_sizes 1 k).



(** The terms of the two reference sums (specification 4.1). *)
Definition dft_term (N k n : Z) (x : Complex) : Complex :=
  c_mul x (c_exp (c_divf (c_mulf (c_mulf (c_mulf (c_mulf (c_neg c_i) f_two) f_pi)
                                         (f_of_Z k)) (f_of_Z n))
                         (f_of_Z N))).

Definition idft_term (N k n : Z) (x : Complex) : Complex :=
  c_mul x (c_exp (c_divf (c_mulf (c_mulf (c_mulf (c_mulf c_i f_two) f_pi)
                                         (f_of_Z k)) (f_of_Z n))
                         (f_of_Z N))).

(** A signal with its indices. *)
Definition indexed (x : Signal) : list (Z * Complex) :=
  imap (λ k v, (Z.of_nat k, v)) x.

(** Output [n] of the reference inverse: the sum over [k] of
    [spectrum[k] * exp(+i*2*pi*k*n/N)], from zero and in index order, then
    the division by [N]. *)
Definition idft_sum (spectrum : Signal) (n : Z) : Complex :=
  foldl (λ c kx, c_add c (idft_term (size spectrum) kx.1 n kx.2)) c_zero
        (indexed spectrum).

Definition idft_spec (spectrum : Signal) : Signal :=
  imap (λ n _, c_divf (idft_sum spectrum (Z.of_nat n)) (f_of_Z (size spectrum)))
       spectrum.

(** Output [k] of the reference transform. *)
Definition dft_sum (signal : Signal) (k : Z) : Complex :=
  foldl (λ c nx, c_add c (dft_term (size signal) k nx.1 nx.2)) c_zero
        (indexed signal).

Definition dft_spec (signal : Signal) : Signal :=
  imap (λ k _, dft_sum signal (Z.of_nat k)) signal.

(** The even-indexed and the odd-indexed samples of a signal. *)
Fixpoint even_samples (x : Signal) : Signal :=
  match x with
  | a :: _ :: rest => a :: even_samples rest
  | _ => []
  end.

Fixpoint odd_samples (x : Signal) : Signal :=
  match x with
  | _ :: b :: rest => b :: odd_samples rest
  | _ => []
  end.

(** The residual of the specification (4.4): the square root of the real
    part of the sum of [(a_i - b_i) * conj(a_i - b_i)], summed from zero in
    index order, over the common length. *)
Definition residual_spec (a b : Signal) : Float :=
  f_sqrt (f_div
    (c_real (foldl (λ acc d, c_add acc (c_mul d (c_conj d))) c_zero
                   (zip_with c_sub a b)))
    (f_of_Z (size a))).

End StageSpec.

(** * Properties *)

(** ** Loops *)

Lemma bind_Ok {A B : Type} (a : A) (f : A → outcome B) : Ok a ≫= f = f a.
Proof. done. Qed.

Lemma for_up_inv {St : Type} (P : Z → St → Prop) (body : Z → St → outcome St) :
  ∀ (count : nat) (i : Z) (st : St),
    P i st →
    (∀ j s, i ≤ j < i + Z.of_nat count → P j s →
            ∃ s', body j s = Ok s' ∧ P (j + 1) s') →
    ∃ st', for_up count i body st = Ok st' ∧ P (i + Z.of_nat count) st'.
Proof.
  induction count as [|count IH]; intros i st Hst Hbody.
  - exists st. split; [done|]. by replace (i + Z.of_nat 0) with i by lia.
  - destruct (Hbody i st) as (s' & Hs' & HP); [lia|done|].
    destruct (IH (i + 1) s' HP) as (st' & Hrun & Hfin).
    { intros j s Hj. apply Hbody. lia. }
    exists st'. split.
    + cbn [for_up]. rewrite Hs'. exact Hrun.
    + by replace (i + Z.of_nat (S count)) with (i + 1 + Z.of_nat count) by lia.
Qed.

Lemma for_range_inv {St : Type} (P : Z → St → Prop) (body : Z → St → outcome St)
    (n : Z) (st : St) :
  0 ≤ n → P 0 st →
  (∀ j s, 0 ≤ j < n → P j s → ∃ s', body j s = Ok s' ∧ P (j + 1) s') →
  ∃ st', for_range n body st = Ok st' ∧ P n st'.
Proof.
  intros Hn Hst Hbody. unfold for_range.
  destruct (for_up_inv P body (Z.to_nat n) 0 st Hst) as (st' & Hrun & Hfin).
  { intros j s Hj. apply Hbody. lia. }
  exists st'. split; [done|]. by replace n with (0 + Z.of_nat (Z.to_nat n)) by lia.
Qed.

Lemma for_range_first_fails {St : Type} (body : Z → St → outcome St)
    (n : Z) (st : St) :
  0 < n → body 0 st = OutOfFuel → for_range n body st = OutOfFuel.
Proof.
  intros Hn Hbody. unfold for_range.
  destruct (Z.to_nat n) as [|c] eqn:Hc; [lia|].
  cbn [for_up]. by rewrite Hbody.
Qed.

(** A loop that fills [buf] front to back ends with the tabulated list. *)
Lemma for_range_tabulate {A : Type} (body : Z → list A → outcome (list A))
    (n : Z) (buf0 out : list A) :
  n = Z.of_nat (length buf0) → length out = length buf0 →
  (∀ k buf x, out !! Z.to_nat k = Some x → 0 ≤ k → length buf = length buf0 →
              body k buf = Ok (<[Z.to_nat k := x]> buf)) →
  for_range n body buf0 = Ok out.
Proof.
  intros -> Hlen Hbody.
  destruct (for_range_inv (λ c buf, length buf = length buf0 ∧
      ∀ j, (Z.of_nat j < c) → buf !! j = out !! j) body
      (Z.of_nat (length buf0)) buf0) as (buf & Hrun & Hl & Hbuf);
    [lia|split; [done|intros; lia]| |].
  - intros c buf Hc (Hl & Hbuf).
    destruct (lookup_lt_is_Some_2 out (Z.to_nat c)) as (x & Hx); [lia|].
    exists (<[Z.to_nat c := x]> buf). split; [by apply Hbody; [|lia|]|].
    split; [by rewrite length_insert|]. intros j Hj.
    destruct (decide (j = Z.to_nat c)) as [->|Hne].
    + rewrite list_lookup_insert_eq by lia. done.
    + rewrite list_lookup_insert_ne by lia. apply Hbuf. lia.
  - rewrite Hrun. f_equal. apply list_eq. intros j.
    destruct (decide (j < length buf0)%nat); [apply Hbuf; lia|].
    rewrite !lookup_ge_None_2 by lia. done.
Qed.

(** A loop that accumulates over the elements of [l] is a left fold. *)
Lemma for_range_foldl {A B : Type} (l : list A) (f : B → A → B)
    (body : Z → B → outcome B) (n : Z) (c0 : B) :
  n = Z.of_nat (length l) →
  (∀ k x c, l !! Z.to_nat k = Some x → 0 ≤ k → body k c = Ok (f c x)) →
  for_range n body c0 = Ok (foldl f c0 l).
Proof.
  intros -> Hbody.
  destruct (for_range_inv (λ c acc, acc = foldl f c0 (take (Z.to_nat c) l)) body
      (Z.of_nat (length l)) c0) as (acc & Hrun & Hacc); [lia|done| |].
  - intros c acc Hc ->.
    destruct (lookup_lt_is_Some_2 l (Z.to_nat c)) as (x & Hx); [lia|].
    exists (f (foldl f c0 (take (Z.to_nat c) l)) x).
    split; [by apply Hbody; [|lia]|].
    replace (Z.to_nat (c + 1)) with (S (Z.to_nat c)) by lia.
    rewrite (take_S_r _ _ _ Hx), foldl_app. done.
  - rewrite Hrun, Hacc. by rewrite Nat2Z.id, firstn_all.
Qed.

(** ** Arrays *)

Lemma array_get_Ok {A : Type} (buf : list A) (i : Z) (v : A) :
  buf !! Z.to_nat i = Some v → array_get buf i = Ok v.
Proof. unfold array_get. by intros ->. Qed.

Lemma array_set_Ok {A : Type} (buf : list A) (i : Z) (v : A) :
  (Z.to_nat i < length buf)%nat → array_set buf i v = Ok (<[Z.to_nat i := v]> buf).
Proof. unfold array_set. intros. by rewrite decide_True. Qed.

(** ** reverse_bits *)

Lemma wrap64_small (z : Z) : 0 ≤ z < 2 ^ 64 → wrap64 z = z.
Proof. unfold wrap64. intros. by apply Z.mod_small. Qed.

Lemma shiftl_1 (z : Z) : Z.shiftl z 1 = 2 * z.
Proof. rewrite Z.shiftl_mul_pow2 by lia. lia. Qed.

Lemma shiftr_1 (z : Z) : Z.shiftr z 1 = z / 2.
Proof. rewrite Z.shiftr_div_pow2 by lia. by rewrite Z.pow_1_r. Qed.

Lemma lor_low_bit (r n : Z) : Z.lor (2 * r) (Z.land n 1) = 2 * r + n mod 2.
Proof.
  change 1 with (Z.ones 1). rewrite Z.land_ones by lia. rewrite Z.pow_1_r.
  rewrite <- Z.lxor_lor, <- Z.add_nocarry_lxor; try done.
  all: apply Z.bits_inj'; intros b Hb; rewrite Z.land_spec, Z.bits_0.
  all: destruct (decide (b = 0)) as [->|];
    [by rewrite Z.testbit_even_0|].
  all: replace (n mod 2) with (n mod 2 ^ 1) by (by rewrite Z.pow_1_r).
  all: rewrite (Z.mod_pow2_bits_high n 1 b) by lia.
  all: apply andb_false_r.
Qed.

(** The loop counter of [reverse_bits] only ever holds [0] or a power of
    two below [2^64]; with any other bound the exit test never succeeds. *)
Lemma reverse_bits_loop_diverges (max : Z) :
  max ≠ 0 → (¬ power_of_two max) →
  ∀ (fuel : nat) (i n result : Z),
    i = 0 ∨ (∃ j, 0 ≤ j ≤ 63 ∧ i = 2 ^ j) →
    reverse_bits_loop fuel i n max result = OutOfFuel.
Proof.
  intros Hmax Hpow.
  assert (∀ i, i = 0 ∨ (∃ j, 0 ≤ j ≤ 63 ∧ i = 2 ^ j) → (i =? max) = false) as Hne.
  { intros i Hi. apply Z.eqb_neq. destruct Hi as [->|(j & Hj & ->)];
      [congruence | intros <-; apply Hpow; exists j; lia]. }
  induction fuel as [|fuel IH]; intros i n result Hi;
    cbn [reverse_bits_loop]; rewrite (Hne i Hi); [done|].
  apply IH. rewrite shiftl_1. destruct Hi as [->|(j & Hj & ->)].
  - by left.
  - destruct (decide (j = 63)) as [->|]; [by left|right].
    exists (j + 1). split; [lia|].
    rewrite Z.pow_add_r, Z.pow_1_r by lia.
    rewrite wrap64_small; [lia|].
    assert (2 ^ j ≤ 2 ^ 62) by (apply Z.pow_le_mono_r; lia). lia.
Qed.

Lemma reverse_bits_diverges (fuel : nat) (n max : Z) :
  max ≠ 0 → (¬ power_of_two max) → reverse_bits fuel n max = OutOfFuel.
Proof.
  intros. apply reverse_bits_loop_diverges; [done..|].
  right. exists 0. split; [lia|done].
Qed.

Lemma bitrev_range (k : nat) : ∀ n, 0 ≤ bitrev k n < 2 ^ Z.of_nat k.
Proof.
  induction k as [|k IH]; intros n; [cbn; lia|].
  cbn [bitrev]. specialize (IH (n / 2)).
  replace (Z.of_nat (S k)) with (Z.of_nat k + 1) by lia.
  rewrite Z.pow_add_r, Z.pow_1_r by lia.
  pose proof (Z.mod_pos_bound n 2). nia.
Qed.

(** From counter [2^j], [m] further iterations reach the bound [2^(j+m)]
    and push the low [m] bits of [n], reversed, onto [result]. *)
Lemma reverse_bits_loop_pow2 (m : nat) :
  ∀ (fuel : nat) (j n result : Z),
    (m ≤ fuel)%nat → 0 ≤ j → j + Z.of_nat m ≤ 63 → 0 ≤ result < 2 ^ j →
    reverse_bits_loop fuel (2 ^ j) n (2 ^ (j + Z.of_nat m)) result
    = Ok (result * 2 ^ Z.of_nat m + bitrev m n).
Proof.
  induction m as [|m IH]; intros fuel j n result Hfuel Hj Hm Hres.
  - replace (j + Z.of_nat 0) with j by lia.
    destruct fuel; cbn [reverse_bits_loop]; rewrite Z.eqb_refl; cbn; f_equal; lia.
  - destruct fuel as [|fuel]; [lia|]. cbn [reverse_bits_loop].
    assert ((2 ^ j =? 2 ^ (j + Z.of_nat (S m))) = false) as ->.
    { apply Z.eqb_neq. intros Heq. apply Z.pow_inj_r in Heq; lia. }
    assert (2 ^ j ≤ 2 ^ 62) by (apply Z.pow_le_mono_r; lia).
    rewrite !shiftl_1, shiftr_1.
    rewrite (wrap64_small (2 * result)), (wrap64_small (2 * 2 ^ j)) by lia.
    rewrite lor_low_bit.
    replace (2 * 2 ^ j) with (2 ^ (j + 1)) by (rewrite Z.pow_add_r; lia).
    replace (j + Z.of_nat (S m)) with (j + 1 + Z.of_nat m) by lia.
    pose proof (Z.mod_pos_bound n 2).
    rewrite IH; [|lia|lia|lia|rewrite Z.pow_add_r; lia].
    f_equal. cbn [bitrev].
    replace (Z.of_nat (S m)) with (Z.of_nat m + 1) by lia.
    rewrite Z.pow_add_r, Z.pow_1_r by lia. lia.
Qed.

Lemma reverse_bits_pow2 (fuel k : nat) (n : Z) :
  (k ≤ fuel)%nat → (k ≤ 63)%nat →
  reverse_bits fuel n (2 ^ Z.of_nat k) = Ok (bitrev k n).
Proof.
  intros Hfuel Hk. unfold reverse_bits.
  change 1 with (2 ^ 0) at 1.
  replace (Z.of_nat k) with (0 + Z.of_nat k) at 1 by lia.
  rewrite reverse_bits_loop_pow2; [f_equal; lia|lia..].
Qed.

(** C7. [reverse_bits(0xAA, 0x100)] is [0x55] and
    [reverse_bits(0xA5, 0x100)] is [0xA5], as exact integers: the loop
    runs eight times and the two test calls of [main] return [true]. *)
Theorem reverse_bits_literals (extra : nat) :
  reverse_bits (8 + extra) 0xAA 0x100 = Ok 0x55 ∧
  reverse_bits (8 + extra) 0xA5 0x100 = Ok 0xA5 ∧
  prop_reverse_bits (8 + extra) 0xAA 0x100 0x55 = Ok true ∧
  prop_reverse_bits (8 + extra) 0xA5 0x100 0xA5 = Ok true.
Proof.
  unfold prop_reverse_bits. change 0x100 with (2 ^ Z.of_nat 8).
  rewrite !reverse_bits_pow2 by lia. by vm_compute.
Qed.

(** [bitrev k n] has, at bit [b < k], bit [k - 1 - b] of [n]. *)
Lemma bitrev_testbit (k : nat) :
  ∀ n b, 0 ≤ b < Z.of_nat k →
    Z.testbit (bitrev k n) b = Z.testbit n (Z.of_nat k - 1 - b).
Proof.
  induction k as [|k IH]; intros n b Hb; [lia|].
  cbn [bitrev]. pose proof (bitrev_range k (n / 2)) as Hr.
  pose proof (Z.mod_pos_bound n 2).
  destruct (decide (b = Z.of_nat k)) as [->|Hne].
  - replace (Z.of_nat (S k) - 1 - Z.of_nat k) with 0 by lia.
    rewrite <- (Z.add_0_l (Z.of_nat k)) at 2.
    rewrite <- Z.div_pow2_bits by lia.
    rewrite Z.div_add_l by lia. rewrite Z.div_small by lia.
    rewrite Z.add_0_r. change 2 with (2 ^ 1) at 1.
    apply Z.mod_pow2_bits_low. lia.
  - rewrite <- (Z.mod_pow2_bits_low _ (Z.of_nat k)) by lia.
    rewrite Z.add_comm, Z.mod_add by lia. rewrite Z.mod_small by lia.
    rewrite IH by lia. change 2 with (2 ^ 1).
    rewrite Z.div_pow2_bits by lia. f_equal. lia.
Qed.

(** ** One butterfly pass and one stage *)

Section Stages.
Context `{FloatOps}.
Implicit Types (g : Z → Z → Complex → Complex → Complex) (y buf : list Complex).

Lemma fft_step_spectrum_pass buf base S :
  fft_step_spectrum buf base S = butterfly_pass forward_combine buf base S.
Proof. reflexivity. Qed.

Lemma ifft_step_pass buf base S :
  ifft_step buf base S = butterfly_pass inverse_combine buf base S.
Proof. reflexivity. Qed.

Lemma lookup_in_range y (j : Z) :
  0 ≤ j < size y → ∃ v, y !! Z.to_nat j = Some v.
Proof.
  intros Hj. apply lookup_lt_is_Some_2. unfold size in Hj. lia.
Qed.

(** The pairs of a pass are disjoint, so every read of the loop sees the
    value the array had before the pass. *)
Lemma butterfly_pass_spec g y base S :
  0 ≤ base → 0 ≤ S → base + S ≤ size y →
  ∃ y', butterfly_pass g y base S = Ok y' ∧ length y' = length y ∧
        ∀ j, 0 ≤ j → y' !! Z.to_nat j = pass_at g S y base (S / 2) j.
Proof.
  intros Hbase HS Hfit.
  assert (0 ≤ S / 2 ∧ 2 * (S / 2) ≤ S) as [Hh0 Hh].
  { pose proof (Z.div_mod S 2). pose proof (Z.mod_pos_bound S 2). lia. }
  unfold butterfly_pass.
  apply (for_range_inv (λ c buf, length buf = length y ∧
    ∀ j, 0 ≤ j → buf !! Z.to_nat j = pass_at g S y base c j)); [done| |].
  { split; [done|]. intros j Hj. unfold pass_at.
    rewrite !decide_False by lia. done. }
  intros c buf Hc (Hlen & Hbuf).
  destruct (lookup_in_range y (base + c)) as (a & Ha); [lia|].
  destruct (lookup_in_range y (base + (c + S / 2))) as (b & Hb); [lia|].
  assert (buf !! Z.to_nat (base + c) = Some a) as Ha'.
  { rewrite Hbuf by lia. unfold pass_at. by rewrite !decide_False by lia. }
  assert (buf !! Z.to_nat (base + (c + S / 2)) = Some b) as Hb'.
  { rewrite Hbuf by lia. unfold pass_at. by rewrite !decide_False by lia. }
  unfold size in Hfit.
  rewrite (array_get_Ok _ _ _ Ha'), bind_Ok, (array_get_Ok _ _ _ Hb'), bind_Ok.
  rewrite array_set_Ok, bind_Ok by lia.
  rewrite array_set_Ok by (rewrite length_insert; lia).
  eexists. split; [done|]. split; [by rewrite !length_insert|].
  intros j Hj.
  destruct (decide (j = base + (c + S / 2))) as [->|Hj2].
  { rewrite list_lookup_insert_eq by (rewrite length_insert; lia).
    unfold pass_at. rewrite decide_False, decide_True by lia.
    replace (base + (c + S / 2) - S / 2) with (base + c) by lia.
    rewrite Ha, Hb. cbn. do 2 f_equal. lia. }
  rewrite list_lookup_insert_ne by lia.
  destruct (decide (j = base + c)) as [->|Hj1].
  { rewrite list_lookup_insert_eq by lia.
    unfold pass_at. rewrite decide_True by lia.
    replace (base + c + S / 2) with (base + (c + S / 2)) by lia.
    rewrite Ha, Hb. cbn. do 2 f_equal. lia. }
  rewrite list_lookup_insert_ne by lia.
  rewrite Hbuf by done. unfold pass_at.
  repeat case_decide; try lia; done.
Qed.

Lemma in_block_mod (S t j : Z) : t * S ≤ j < t * S + S → j mod S = j - t * S.
Proof.
  intros Hj. symmetry. apply (Z.mod_unique_pos j S t (j - t * S)); lia.
Qed.

(** A stage: the passes over blocks [0 .. tc) leave every block combined
    from the values it had before the stage, and the rest untouched. *)
Lemma stage_loop_spec g y tc S :
  0 ≤ tc → 0 ≤ S → tc * S ≤ size y →
  ∃ y', for_range tc (λ t buf, butterfly_pass g buf (t * S) S) y = Ok y' ∧
        length y' = length y ∧
        ∀ j, 0 ≤ j →
          y' !! Z.to_nat j
          = if decide (j < tc * S) then stage_at g S y j else y !! Z.to_nat j.
Proof.
  intros Htc HS Hfit.
  assert (0 ≤ S / 2 ∧ 2 * (S / 2) ≤ S) as [Hh0 Hh].
  { pose proof (Z.div_mod S 2). pose proof (Z.mod_pos_bound S 2). lia. }
  destruct (for_range_inv (λ t buf, length buf = length y ∧
    ∀ j, 0 ≤ j → buf !! Z.to_nat j
      = if decide (j < t * S) then stage_at g S y j else y !! Z.to_nat j)
    (λ t buf, butterfly_pass g buf (t * S) S) tc y) as (yf & Hf & Hlenf & Hyf);
    [done| | |by exists yf].
  { split; [done|]. intros j Hj. by rewrite decide_False by lia. }
  intros t buf Ht (Hlen & Hbuf).
  destruct (butterfly_pass_spec g buf (t * S) S) as (y' & Hrun & Hlen' & Hy');
    [nia|done|unfold size in *; nia|].
  exists y'. split; [done|]. split; [congruence|].
  intros j Hj. rewrite Hy' by done. unfold pass_at.
  replace ((t + 1) * S) with (t * S + S) by lia.
  destruct (decide (t * S ≤ j < t * S + S / 2)) as [Hlo|Hlo].
  { rewrite !Hbuf, !(decide_False (P:=_ < t * S)), decide_True by lia.
    unfold stage_at. rewrite (in_block_mod S t j) by lia.
    by rewrite decide_True by lia. }
  destruct (decide (t * S + S / 2 ≤ j < t * S + S / 2 + S / 2)) as [Hhi|Hhi].
  { rewrite !Hbuf, !(decide_False (P:=_ < t * S)), decide_True by lia.
    unfold stage_at. rewrite (in_block_mod S t j) by lia.
    by rewrite decide_False, decide_True by lia. }
  rewrite Hbuf by done.
  destruct (decide (j < t * S)) as [Hold|Hold]; [by rewrite decide_True by lia|].
  destruct (decide (j < t * S + S)) as [Hin|Hin]; [|done].
  unfold stage_at. rewrite (in_block_mod S t j) by lia.
  by rewrite !decide_False by lia.
Qed.

Lemma fft_step_loop y tc S :
  fft_step y 0 tc S = for_range tc (λ t buf, butterfly_pass forward_combine buf (t * S) S) y.
Proof. reflexivity. Qed.

Lemma to_int_small (z : Z) : - 2 ^ 31 ≤ z < 2 ^ 31 → to_int z = z.
Proof. unfold to_int. intros. rewrite Z.mod_small; lia. Qed.

(** A block size of [2^31] does not fit the [int] parameter of [W] and
    [Q]: it arrives there as [-2^31]. *)
Lemma to_int_wraps : to_int (2 ^ 31) = - 2 ^ 31.
Proof. reflexivity. Qed.



End Stages.



(** ** Transforms of degenerate lengths *)

Section Degenerate.
Context `{FloatOps}.

Lemma fft_stages_done (fuel : nat) (result : list Complex) (N tc : Z) :
  tc < 1 → fft_stages fuel result N tc = Ok result.
Proof.
  intros Htc. assert ((1 <=? tc) = false) as Hc by lia.
  destruct fuel; cbn [fft_stages]; by rewrite Hc.
Qed.

Lemma ifft_stages_done (fuel : nat) (result : list Complex) (N sc tc : Z) :
  N < sc → ifft_stages fuel result N sc tc = Ok result.
Proof.
  intros Hsc. assert ((sc <=? N) = false) as Hc by lia.
  destruct fuel; cbn [ifft_stages]; by rewrite Hc.
Qed.

Lemma reverse_bits_0_1 (fuel : nat) : reverse_bits fuel 0 1 = Ok 0.
Proof. by destruct fuel. Qed.

(** C10. On a signal of length 1 both [fft] and [ifft] return the signal
    unchanged: [reverse_bits(0, 1)] is [0] without a single iteration,
    and neither stage loop is entered (no iteration budget is used). *)
Theorem fft_ifft_singleton (fuel : nat) (x : Complex) :
  reverse_bits fuel 0 1 = Ok 0 ∧
  fft fuel [x] = Ok [x] ∧ ifft fuel [x] = Ok [x] ∧
  fft 0 [x] = Ok [x] ∧ ifft 0 [x] = Ok [x].
Proof.
  assert (∀ f, fft f [x] = Ok [x] ∧ ifft f [x] = Ok [x]) as Hall.
  { intros f. unfold fft, ifft, fft_init, for_range, new_signal.
    change (size [x]) with 1. change (Z.to_nat 1) with 1%nat.
    cbn [for_up replicate]. rewrite reverse_bits_0_1, !bind_Ok.
    rewrite (array_get_Ok [x] 0 x), !bind_Ok by done.
    rewrite array_set_Ok, !bind_Ok by (cbn; lia).
    change (1 / 2) with 0.
    by rewrite fft_stages_done, ifft_stages_done by lia. }
  split; [apply reverse_bits_0_1|].
  destruct (Hall fuel), (Hall O). done.
Qed.

Lemma fft_empty (fuel : nat) : fft fuel [] = Ok [].
Proof.
  unfold fft. change (size []) with 0. change (0 / 2) with 0.
  unfold fft_init, for_range. change (Z.to_nat 0) with 0%nat.
  cbn [for_up]. rewrite bind_Ok.
  by rewrite fft_stages_done by lia.
Qed.

Lemma ifft_empty (fuel : nat) : ifft fuel [] = Ok [].
Proof.
  unfold ifft. change (size []) with 0. change (0 / 2) with 0.
  unfold for_range. change (Z.to_nat 0) with 0%nat.
  cbn [for_up]. rewrite bind_Ok.
  by rewrite ifft_stages_done by lia.
Qed.

Lemma fft_diverges (fuel : nat) (signal : Signal) :
  signal ≠ [] → (¬ power_of_two (size signal)) → fft fuel signal = OutOfFuel.
Proof.
  intros Hne Hpow. unfold fft, fft_init.
  rewrite for_range_first_fails; [done| |].
  - unfold size. destruct signal; [done|cbn; lia].
  - rewrite reverse_bits_diverges; [done| |done].
    unfold size. destruct signal; [done|cbn; lia].
Qed.

Lemma ifft_diverges (fuel : nat) (spectrum : Signal) :
  spectrum ≠ [] → (¬ power_of_two (size spectrum)) →
  ifft fuel spectrum = OutOfFuel.
Proof.
  intros Hne Hpow. unfold ifft.
  rewrite for_range_first_fails; [done| |].
  - unfold size. destruct spectrum; [done|cbn; lia].
  - rewrite reverse_bits_diverges; [done| |done].
    unfold size. destruct spectrum; [done|cbn; lia].
Qed.

(** C6, as the code has it.  Neither transform checks the length.  On the
    empty signal both return the empty signal.  On a non-empty signal
    whose length is not a power of two, the first call of [reverse_bits]
    never reaches its exit test, whatever the iteration budget: no
    result, truncated or padded, is ever produced, and no assertion is
    reached. *)
Theorem fft_ifft_non_power_of_two (fuel : nat) (signal : Signal) :
  (¬ power_of_two (size signal)) →
  (signal = [] ∧ fft fuel signal = Ok [] ∧ ifft fuel signal = Ok []) ∨
  (signal ≠ [] ∧ fft fuel signal = OutOfFuel ∧ ifft fuel signal = OutOfFuel).
Proof.
  intros Hpow. destruct (decide (signal = [])) as [->|Hne].
  - left. by rewrite fft_empty, ifft_empty.
  - right. by rewrite fft_diverges, ifft_diverges.
Qed.

End Degenerate.

Lemma not_power_of_two_0 : ¬ power_of_two 0.
Proof.
  intros (k & Hk & Heq). pose proof (Z.pow_pos_nonneg 2 k). lia.
Qed.

Lemma not_power_of_two_3 : ¬ power_of_two 3.
Proof.
  intros (k & Hk & Heq).
  destruct (decide (k = 0)) as [->|]; [done|].
  destruct (decide (k = 1)) as [->|]; [done|].
  assert (2 ^ 2 ≤ 2 ^ k) by (apply Z.pow_le_mono_r; lia). lia.
Qed.

(** C6, as the specification has it, fails.  The empty signal has length
    0, not a power of two, and both transforms return normally.  Three
    samples are not a power of two either, and neither transform ever ends
    its run there, be it with an abort or a rejection. *)
Lemma fft_ifft_length_not_rejected :
  ¬ (∀ signal : list (@Complex symbolic),
       (¬ power_of_two (size signal)) →
       ∃ fuel, precondition_failure (fft fuel signal) ∧
               precondition_failure (ifft fuel signal)) ∧
  ¬ (∀ signal : list (@Complex symbolic),
       signal ≠ [] → (¬ power_of_two (size signal)) →
       ∃ fuel, precondition_failure (fft fuel signal) ∨
               precondition_failure (ifft fuel signal)).
Proof.
  split; intros Hclaim.
  - destruct (Hclaim [] not_power_of_two_0) as (fuel & _ & Hifft).
    by rewrite ifft_empty in Hifft.
  - destruct (Hclaim [sample 1; sample 2; sample 3]) as (fuel & Hfail);
      [done|exact not_power_of_two_3|].
    rewrite fft_diverges, ifft_diverges in Hfail
      by (done || exact not_power_of_two_3).
    by destruct Hfail.
Qed.

Lemma fft_ifft_non_power_of_two_witness :
  fft 70 [sample 1; sample 2; sample 3] = OutOfFuel ∧
  ifft 70 [sample 1; sample 2; sample 3] = OutOfFuel.
Proof.
  destruct (fft_ifft_non_power_of_two 70 [sample 1; sample 2; sample 3])
    as [(Hnil & _)|(_ & Hfft & Hifft)].
  - exact not_power_of_two_3.
  - discriminate Hnil.
  - exact (conj Hfft Hifft).
Defined.

(** ** The transforms as permutation followed by stages *)

Section Structure.
Context `{FloatOps}.
Implicit Types (g : Z → Z → Complex → Complex → Complex) (y buf : list Complex).

Lemma stage_length g S y : length (stage g S y) = length y.
Proof. apply length_imap. Qed.

(** A stage whose blocks cover the array is the function [stage]. *)
Lemma stage_loop_whole g y tc S :
  0 ≤ tc → 0 ≤ S → tc * S = size y →
  for_range tc (λ t buf, butterfly_pass g buf (t * S) S) y = Ok (stage g S y).
Proof.
  intros Htc HS Hfit.
  destruct (stage_loop_spec g y tc S) as (y' & Hrun & Hlen & Hy'); [lia..|].
  rewrite Hrun. f_equal. apply list_eq. intros j.
  unfold stage. rewrite list_lookup_imap.
  destruct (decide (j < length y)%nat) as [Hj|Hj].
  - destruct (lookup_lt_is_Some_2 y j Hj) as (v & Hv).
    destruct (lookup_lt_is_Some_2 y' j) as (w & Hw); [lia|].
    rewrite Hv, Hw. cbn.
    specialize (Hy' (Z.of_nat j)). rewrite Nat2Z.id, Hw in Hy'.
    unfold size in Hfit. rewrite decide_True in Hy' by lia.
    by rewrite <- Hy' by lia.
  - by rewrite !lookup_ge_None_2 by lia.
Qed.

Lemma bit_reversal_length k y : length (bit_reversal k y) = length y.
Proof. apply length_imap. Qed.

Lemma bit_reversal_lookup (k : nat) y (j : Z) :
  size y = 2 ^ Z.of_nat k → 0 ≤ j < size y →
  bit_reversal k y !! Z.to_nat j = y !! Z.to_nat (bitrev k j) ∧
  0 ≤ bitrev k j < size y.
Proof.
  intros Hsize Hj. pose proof (bitrev_range k j) as Hr. rewrite <- Hsize in Hr.
  split; [|done]. unfold bit_reversal. rewrite list_lookup_imap.
  destruct (lookup_in_range y j Hj) as (v & ->).
  destruct (lookup_in_range y (bitrev k j) Hr) as (w & Hw).
  cbn. rewrite Z2Nat.id by lia. by rewrite Hw.
Qed.

(** The permutation loop shared by [fft_init] and [ifft]. *)
Lemma bit_reversal_loop (fuel k : nat) (src dst : list Complex) :
  size src = 2 ^ Z.of_nat k → length dst = length src →
  (k ≤ 63)%nat → (k ≤ fuel)%nat →
  for_range (size src)
    (λ i dst, r ← reverse_bits fuel i (size src); v ← array_get src r; array_set dst i v)
    dst
  = Ok (bit_reversal k src).
Proof.
  intros Hsize Hlen Hk Hfuel.
  apply for_range_tabulate;
    [unfold size; by rewrite Hlen|by rewrite bit_reversal_length|].
  intros i buf x Hx Hi Hbuf.
  assert (0 ≤ i < size src) as Hi'.
  { apply lookup_lt_Some in Hx. rewrite bit_reversal_length in Hx.
    unfold size. lia. }
  destruct (bit_reversal_lookup k src i Hsize Hi') as (Hlook & Hr).
  rewrite Hsize, reverse_bits_pow2, bind_Ok by done.
  rewrite Hlook in Hx. rewrite (array_get_Ok _ _ _ Hx), bind_Ok.
  apply array_set_Ok. unfold size in Hi'. lia.
Qed.

Lemma block_sizes_cons (first : Z) (count : nat) :
  block_sizes first (S count) = 2 ^ first :: block_sizes (first + 1) count.
Proof.
  unfold block_sizes. rewrite seqZ_cons by lia. cbn [fmap list_fmap].
  do 3 f_equal; lia.
Qed.

Lemma pow2_half (m : nat) : 2 ^ Z.of_nat (S m) / 2 = 2 ^ Z.of_nat m.
Proof.
  replace (Z.of_nat (S m)) with (Z.of_nat m + 1) by lia.
  rewrite Z.pow_add_r, Z.pow_1_r by lia. by rewrite Z.div_mul.
Qed.

Lemma pow2_div (k m : nat) :
  (m ≤ k)%nat → 2 ^ Z.of_nat k / 2 ^ Z.of_nat m = 2 ^ (Z.of_nat k - Z.of_nat m).
Proof.
  intros Hm. replace (Z.of_nat k) with (Z.of_nat k - Z.of_nat m + Z.of_nat m) at 1 by lia.
  rewrite Z.pow_add_r by lia. rewrite Z.div_mul; [done|].
  pose proof (Z.pow_pos_nonneg 2 (Z.of_nat m)). lia.
Qed.

(** With [m] stages to go, the [while] loop of [fft] runs them with block
    sizes [2^(k-m+1), ..., 2^k] and stops. *)
Lemma fft_stages_run (k : nat) :
  ∀ (m fuel : nat) y,
    (m ≤ fuel)%nat → (m ≤ k)%nat → size y = 2 ^ Z.of_nat k →
    fft_stages fuel y (2 ^ Z.of_nat k) (2 ^ Z.of_nat m / 2)
    = Ok (foldl (λ y S, stage forward_combine S y) y
            (block_sizes (Z.of_nat k - Z.of_nat m + 1) m)).
Proof.
  induction m as [|m IH]; intros fuel y Hfuel Hm Hsize.
  - change (2 ^ Z.of_nat 0 / 2) with 0. by rewrite fft_stages_done by lia.
  - destruct fuel as [|fuel]; [lia|].
    rewrite pow2_half. cbn [fft_stages].
    pose proof (Z.pow_pos_nonneg 2 (Z.of_nat m)) as Hpos.
    assert ((1 <=? 2 ^ Z.of_nat m) = true) as -> by lia.
    rewrite pow2_div by lia. rewrite fft_step_loop.
    pose proof (Z.pow_pos_nonneg 2 (Z.of_nat k - Z.of_nat m)).
    rewrite stage_loop_whole, bind_Ok; [|lia|lia|].
    2:{ rewrite <- Z.pow_add_r by lia. rewrite Hsize. f_equal. lia. }
    rewrite shiftr_1.
    rewrite IH by (unfold size in *; rewrite ?stage_length; lia).
    rewrite block_sizes_cons. cbn [foldl].
    replace (Z.of_nat k - Z.of_nat (S m) + 1) with (Z.of_nat k - Z.of_nat m) by lia.
    done.
Qed.

(** The forward transform of [2^k] samples: bit-reversal permutation,
    then stages of block size 2, 4, ..., [2^k]. *)
Lemma fft_structure (k fuel : nat) (signal : Signal) :
  size signal = 2 ^ Z.of_nat k → (k ≤ 63)%nat → (k ≤ fuel)%nat →
  fft fuel signal
  = Ok (foldl (λ y S, stage forward_combine S y) (bit_reversal k signal)
          (block_sizes 1 k)).
Proof.
  intros Hsize Hk Hfuel. unfold fft, fft_init.
  rewrite (bit_reversal_loop fuel k), bind_Ok; [|done| |done..].
  2:{ unfold new_signal, size. by rewrite length_replicate, Nat2Z.id. }
  rewrite Hsize.
  rewrite fft_stages_run; [|done..|].
  - do 3 f_equal. lia.
  - unfold size in *. by rewrite bit_reversal_length.
Qed.

Lemma ifft_stage_loop y tc S :
  for_range tc (λ transform result, ifft_step result (transform * S) S) y
  = for_range tc (λ t buf, butterfly_pass inverse_combine buf (t * S) S) y.
Proof. reflexivity. Qed.

(** With [m] stages to go, the [while] loop of [ifft] runs them with block
    sizes [2^(k-m+1), ..., 2^k]; its assertion holds each time. *)
Lemma ifft_stages_run (k : nat) :
  (k ≤ 62)%nat →
  ∀ (m fuel : nat) y,
    (m ≤ fuel)%nat → (m ≤ k)%nat → size y = 2 ^ Z.of_nat k →
    ifft_stages fuel y (2 ^ Z.of_nat k)
      (2 ^ (Z.of_nat k - Z.of_nat m + 1)) (2 ^ Z.of_nat m / 2)
    = Ok (foldl (λ y S, stage inverse_combine S y) y
            (block_sizes (Z.of_nat k - Z.of_nat m + 1) m)).
Proof.
  intros Hk. induction m as [|m IH]; intros fuel y Hfuel Hm Hsize.
  - rewrite ifft_stages_done; [done|].
    replace (Z.of_nat k - Z.of_nat 0 + 1) with (Z.of_nat k + 1) by lia.
    rewrite Z.pow_add_r, Z.pow_1_r by lia.
    pose proof (Z.pow_pos_nonneg 2 (Z.of_nat k)). lia.
  - destruct fuel as [|fuel]; [lia|].
    rewrite pow2_half. cbn [ifft_stages].
    replace (Z.of_nat k - Z.of_nat (S m) + 1) with (Z.of_nat k - Z.of_nat m) by lia.
    pose proof (Z.pow_pos_nonneg 2 (Z.of_nat m)) as Hpos.
    pose proof (Z.pow_pos_nonneg 2 (Z.of_nat k - Z.of_nat m)) as Hpos'.
    assert (2 ^ Z.of_nat m * 2 ^ (Z.of_nat k - Z.of_nat m) = 2 ^ Z.of_nat k) as Hprod.
    { rewrite <- Z.pow_add_r by lia. f_equal. lia. }
    assert (2 ^ Z.of_nat k ≤ 2 ^ 62) as Hbound by (apply Z.pow_le_mono_r; lia).
    pose proof (Z.pow_pos_nonneg 2 (Z.of_nat k)) as Hposk.
    assert ((2 ^ (Z.of_nat k - Z.of_nat m) <=? 2 ^ Z.of_nat k) = true) as ->.
    { apply Z.leb_le, Z.pow_le_mono_r; lia. }
    rewrite Hprod, (wrap64_small (2 ^ Z.of_nat k)), Z.eqb_refl by lia.
    unfold assert. rewrite bind_Ok.
    rewrite ifft_stage_loop, stage_loop_whole, bind_Ok by lia.
    rewrite shiftl_1, shiftr_1, wrap64_small by nia.
    replace (2 * 2 ^ (Z.of_nat k - Z.of_nat m))
      with (2 ^ (Z.of_nat k - Z.of_nat m + 1))
      by (rewrite Z.pow_add_r; lia).
    rewrite IH by (unfold size in *; rewrite ?stage_length; lia).
    by rewrite block_sizes_cons.
Qed.

Lemma ifft_structure (k fuel : nat) (spectrum : Signal) :
  size spectrum = 2 ^ Z.of_nat k → (k ≤ 62)%nat → (k ≤ fuel)%nat →
  ifft fuel spectrum
  = Ok (foldl (λ y S, stage inverse_combine S y) (bit_reversal k spectrum)
          (block_sizes 1 k)).
Proof.
  intros Hsize Hk Hfuel. unfold ifft.
  rewrite (bit_reversal_loop fuel k), bind_Ok; [|done| |lia|done].
  2:{ unfold new_signal, size. by rewrite length_replicate, Nat2Z.id. }
  rewrite Hsize.
  destruct k as [|k'].
  - rewrite ifft_stages_done; [done|]. cbn. lia.
  - rewrite pow2_half.
    pose proof (ifft_stages_run (S k') Hk (S k') fuel (bit_reversal (S k') spectrum))
      as Hrun.
    rewrite pow2_half in Hrun.
    replace (Z.of_nat (S k') - Z.of_nat (S k') + 1) with 1 in Hrun by lia.
    apply Hrun; [done..|].
    unfold size in *. by rewrite bit_reversal_length.
Qed.

(** Both halves of a pair after one stage, read off the function [stage]. *)
Lemma stage_pair g S y (t p : Z) :
  0 ≤ t → 0 ≤ p < S / 2 → (t + 1) * S ≤ size y →
  ∃ a b,
    y !! Z.to_nat (t * S + p) = Some a ∧
    y !! Z.to_nat (t * S + p + S / 2) = Some b ∧
    stage g S y !! Z.to_nat (t * S + p) = Some (g p S a b) ∧
    stage g S y !! Z.to_nat (t * S + p + S / 2) = Some (g (p + S / 2) S a b).
Proof.
  intros Ht Hp Hfit.
  assert (0 ≤ S / 2 ∧ 2 * (S / 2) ≤ S) as [Hh0 Hh].
  { pose proof (Z.div_mod S 2). pose proof (Z.mod_pos_bound S 2). lia. }
  destruct (lookup_in_range y (t * S + p)) as (a & Ha); [nia|].
  destruct (lookup_in_range y (t * S + p + S / 2)) as (b & Hb); [nia|].
  exists a, b. split; [done|]. split; [done|].
  unfold stage. rewrite !list_lookup_imap, Ha, Hb. cbn.
  rewrite !Z2Nat.id by nia. unfold stage_at.
  rewrite (in_block_mod S t (t * S + p)) by lia.
  rewrite (in_block_mod S t (t * S + p + S / 2)) by lia.
  rewrite decide_True by lia.
  rewrite decide_False, decide_True by lia.
  replace (t * S + p + S / 2 - S / 2) with (t * S + p) by lia.
  rewrite Ha, Hb. cbn. split; repeat f_equal; lia.
Qed.

Lemma indexed_lookup (x : Signal) (k : Z) (kv : Z * Complex) :
  indexed x !! Z.to_nat k = Some kv → 0 ≤ k →
  kv.1 = k ∧ x !! Z.to_nat k = Some kv.2.
Proof.
  unfold indexed. rewrite list_lookup_imap.
  destruct (x !! Z.to_nat k) as [v|]; cbn; intros Hkv Hk; [|done].
  injection Hkv as <-. cbn. split; [lia|done].
Qed.

Lemma indexed_length (x : Signal) : length (indexed x) = length x.
Proof. apply length_imap. Qed.

(** The reference inverse computes, for every output, the sum and then
    the quotient by [N]. *)
Lemma idft_run (spectrum : Signal) : idft spectrum = Ok (idft_spec spectrum).
Proof.
  unfold idft. set (N := size spectrum).
  apply for_range_tabulate; [done| |].
  { unfold idft_spec, new_signal, N, size.
    by rewrite length_imap, length_replicate, Nat2Z.id. }
  intros n buf x Hx Hn Hbuf.
  unfold idft_spec in Hx. rewrite list_lookup_imap in Hx. revert Hx.
  destruct (spectrum !! Z.to_nat n) as [v|] eqn:Hv; cbn; intros Hx; [|done].
  injection Hx as <-. rewrite Z2Nat.id by lia.
  rewrite (for_range_foldl (indexed spectrum)
    (λ c kx, c_add c (idft_term (size spectrum) kx.1 n kx.2))).
  - rewrite bind_Ok. apply array_set_Ok. apply lookup_lt_Some in Hv.
    rewrite Hbuf. unfold new_signal, N, size.
    rewrite length_replicate. lia.
  - unfold size. by rewrite indexed_length.
  - intros k kv c Hkv Hk. destruct (indexed_lookup _ _ _ Hkv Hk) as (Hk1 & Hk2).
    rewrite (array_get_Ok _ _ _ Hk2), bind_Ok. by rewrite Hk1.
Qed.

Lemma dft_run (signal : Signal) : dft signal = Ok (dft_spec signal).
Proof.
  unfold dft. set (N := size signal).
  apply for_range_tabulate; [done| |].
  { unfold dft_spec, new_signal, N, size.
    by rewrite length_imap, length_replicate, Nat2Z.id. }
  intros k buf x Hx Hk Hbuf.
  unfold dft_spec in Hx. rewrite list_lookup_imap in Hx. revert Hx.
  destruct (signal !! Z.to_nat k) as [v|] eqn:Hv; cbn; intros Hx; [|done].
  injection Hx as <-. rewrite Z2Nat.id by lia.
  rewrite (for_range_foldl (indexed signal)
    (λ c nx, c_add c (dft_term (size signal) k nx.1 nx.2))).
  - rewrite bind_Ok. apply array_set_Ok. apply lookup_lt_Some in Hv.
    rewrite Hbuf. unfold new_signal, N, size.
    rewrite length_replicate. lia.
  - unfold size. by rewrite indexed_length.
  - intros n nv c Hnv Hn. destruct (indexed_lookup _ _ _ Hnv Hn) as (Hn1 & Hn2).
    rewrite (array_get_Ok _ _ _ Hn2), bind_Ok. by rewrite Hn1.
Qed.

Lemma block_sizes_lookup (first : Z) (count e : nat) :
  (e < count)%nat → block_sizes first count !! e = Some (2 ^ (first + Z.of_nat e)).
Proof.
  intros He. unfold block_sizes.
  by rewrite list_lookup_fmap, lookup_seqZ_lt by lia.
Qed.



End Structure.



(** ** The residual *)

Section Residual.
Context `{FloatOps}.

Lemma signal_sub_run (a b : Signal) :
  length a = length b → signal_sub a b = Ok (zip_with c_sub a b).
Proof.
  intros Hlen. unfold signal_sub, size. rewrite Hlen, Z.eqb_refl.
  unfold assert. rewrite bind_Ok.
  apply for_range_tabulate.
  - unfold new_signal. by rewrite length_replicate, Nat2Z.id.
  - unfold new_signal. rewrite length_replicate, Nat2Z.id.
    rewrite length_zip_with. lia.
  - intros k buf d Hd Hk Hbuf.
    apply lookup_zip_with_Some in Hd as (x & y & -> & Hx & Hy).
    rewrite (array_get_Ok _ _ _ Hx), bind_Ok, (array_get_Ok _ _ _ Hy), bind_Ok.
    apply array_set_Ok. apply lookup_lt_Some in Hy.
    rewrite Hbuf. unfold new_signal. rewrite length_replicate. lia.
Qed.

Lemma signal_sub_mismatch (a b : Signal) :
  length a ≠ length b → signal_sub a b = AssertFail.
Proof.
  intros Hlen. unfold signal_sub, size.
  assert ((Z.of_nat (length a) =? Z.of_nat (length b)) = false) as -> by lia.
  reflexivity.
Qed.

Lemma dot_signal_self (e : Signal) :
  dot_signal e e = Ok (foldl (λ acc d, c_add acc (c_mul d (c_conj d))) c_zero e).
Proof.
  unfold dot_signal. rewrite Z.eqb_refl. unfold assert. rewrite bind_Ok.
  apply for_range_foldl; [done|].
  intros k d c Hd Hk. by rewrite (array_get_Ok _ _ _ Hd), !bind_Ok.
Qed.

Lemma error_run (a b : Signal) :
  length a = length b → error a b = Ok (residual_spec a b).
Proof.
  intros Hlen. unfold error.
  rewrite signal_sub_run, bind_Ok by done.
  rewrite dot_signal_self, bind_Ok. unfold residual_spec, size.
  rewrite length_zip_with. do 5 f_equal. lia.
Qed.

(** C8. On sequences of equal length [error] returns
    [sqrt(Re(sum of (a_i - b_i) * conj(a_i - b_i)) / N)]; on sequences of
    different lengths the assertion of [operator-] aborts the run. *)
Theorem error_is_residual (a b : Signal) :
  (length a = length b → error a b = Ok (residual_spec a b)) ∧
  (length a ≠ length b → error a b = AssertFail).
Proof.
  split; intros Hlen; [by apply error_run|].
  unfold error. by rewrite signal_sub_mismatch.
Qed.

End Residual.

Lemma error_is_residual_witness :
  error [sample 3; sample 5] [sample 1; sample 4]
  = Ok (residual_spec [sample 3; sample 5] [sample 1; sample 4]) ∧
  error [sample 3; sample 5] [sample 1] = AssertFail.
Proof.
  split.
  - apply (proj1 (error_is_residual [sample 3; sample 5] [sample 1; sample 4])).
    reflexivity.
  - apply (proj2 (error_is_residual [sample 3; sample 5] [sample 1])).
    cbn. lia.
Defined.

(** ** The differential tests

    Every residual the harness compares with [eps] is [residual_spec] of two
    lists of float expressions; the comparison itself is a property of the
    float arithmetic. *)

Section Harness.
Context `{FloatOps}.

Lemma dft_spec_length (x : Signal) : length (dft_spec x) = length x.
Proof. apply length_imap. Qed.

Lemma idft_spec_length (x : Signal) : length (idft_spec x) = length x.
Proof. apply length_imap. Qed.

Lemma fft_spec_length (k : nat) (x : Signal) : length (fft_spec k x) = length x.
Proof.
  unfold fft_spec. rewrite <- (bit_reversal_length k x).
  generalize (bit_reversal k x) as y. generalize (block_sizes 1 k) as sizes.
  induction sizes as [|S sizes IH]; intros y; [done|].
  cbn [foldl]. by rewrite IH, stage_length.
Qed.

Lemma ifft_spec_length (k : nat) (x : Signal) : length (ifft_spec k x) = length x.
Proof.
  unfold ifft_spec. rewrite <- (bit_reversal_length k x).
  generalize (bit_reversal k x) as y. generalize (block_sizes 1 k) as sizes.
  induction sizes as [|S sizes IH]; intros y; [done|].
  cbn [foldl]. by rewrite IH, stage_length.
Qed.

Lemma prop_inverse_dft_run (x : Signal) :
  prop_inverse_dft x = Ok (residual_spec x (idft_spec (dft_spec x))).
Proof.
  unfold prop_inverse_dft. rewrite dft_run, bind_Ok, idft_run, bind_Ok.
  apply error_run. by rewrite idft_spec_length, dft_spec_length.
Qed.

Lemma prop_inverse_fft_run (k fuel : nat) (x : Signal) :
  size x = 2 ^ Z.of_nat k → (k ≤ 62)%nat → (k ≤ fuel)%nat →
  prop_inverse_fft fuel x = Ok (residual_spec x (ifft_spec k (fft_spec k x))).
Proof.
  intros Hsize Hk Hfuel. unfold prop_inverse_fft.
  rewrite (fft_structure k), bind_Ok by (done || lia). fold (fft_spec k x).
  rewrite (ifft_structure k), bind_Ok;
    [|unfold size in *; by rewrite fft_spec_length|done..].
  fold (ifft_spec k (fft_spec k x)).
  apply error_run. by rewrite ifft_spec_length, fft_spec_length.
Qed.

Lemma prop_dft_equal_fft_run (k fuel : nat) (x : Signal) :
  size x = 2 ^ Z.of_nat k → (k ≤ 63)%nat → (k ≤ fuel)%nat →
  prop_dft_equal_fft fuel x = Ok (residual_spec (dft_spec x) (fft_spec k x)).
Proof.
  intros Hsize Hk Hfuel. unfold prop_dft_equal_fft.
  rewrite dft_run, bind_Ok, (fft_structure k), bind_Ok by done.
  fold (fft_spec k x).
  apply error_run. by rewrite dft_spec_length, fft_spec_length.
Qed.

Lemma prop_idft_equal_ifft_run (k fuel : nat) (x : Signal) :
  size x = 2 ^ Z.of_nat k → (k ≤ 62)%nat → (k ≤ fuel)%nat →
  prop_idft_equal_ifft fuel x = Ok (residual_spec (idft_spec x) (ifft_spec k x)).
Proof.
  intros Hsize Hk Hfuel. unfold prop_idft_equal_ifft.
  rewrite idft_run, bind_Ok, (ifft_structure k), bind_Ok by done.
  fold (ifft_spec k x).
  apply error_run. by rewrite idft_spec_length, ifft_spec_length.
Qed.

Lemma list_pair_ind {A : Type} (P : list A → Prop) :
  P [] → (∀ a, P [a]) → (∀ a b l, P l → P (a :: b :: l)) → ∀ l, P l.
Proof.
  intros Hnil Hone Hstep l.
  assert (P l ∧ ∀ a, P (a :: l)) as [Hl _]; [|done].
  induction l as [|b l [IH1 IH2]]; [by split|].
  split; [apply IH2|]. intros a. by apply Hstep.
Qed.

Lemma samples_length (x : Signal) :
  length (even_samples x) = (length x / 2)%nat ∧
  length (odd_samples x) = (length x / 2)%nat.
Proof.
  induction x as [|a|a b l [IHe IHo]] using list_pair_ind; [done..|].
  cbn [even_samples odd_samples length]. rewrite IHe, IHo.
  change (S (S (length l))) with (1 * 2 + length l)%nat.
  rewrite Nat.div_add_l by done. lia.
Qed.

Lemma samples_lookup (x : Signal) :
  ∀ i, (2 * i + 1 < length x)%nat →
    even_samples x !! i = x !! (2 * i)%nat ∧
    odd_samples x !! i = x !! (2 * i + 1)%nat.
Proof.
  induction x as [|a|a b l IH] using list_pair_ind; intros i Hi;
    [cbn in Hi; lia..|].
  destruct i as [|i]; [done|].
  cbn [even_samples odd_samples length] in *.
  replace (2 * S i)%nat with (S (S (2 * i))) by lia.
  replace (S (S (2 * i)) + 1)%nat with (S (S (2 * i + 1))) by lia.
  cbn [lookup list_lookup]. apply IH. lia.
Qed.

(** The partition loop of [prop_fft_is_decomposed_dft]. *)
Lemma partition_run (x : Signal) :
  for_range (size x / 2)
    (λ i (parts : list Complex * list Complex),
      a ← array_get x (2 * i);
      b ← array_get x (2 * i + 1);
      Ok (parts.1 ++ [a], parts.2 ++ [b]))
    ([], [])
  = Ok (even_samples x, odd_samples x).
Proof.
  destruct (samples_length x) as (Hle & Hlo).
  assert (size x / 2 = Z.of_nat (length x / 2)) as Hhalf.
  { unfold size. by rewrite Nat2Z.inj_div. }
  destruct (for_range_inv (λ c parts,
      parts = (take (Z.to_nat c) (even_samples x),
               take (Z.to_nat c) (odd_samples x)))
    (λ i (parts : list Complex * list Complex),
      a ← array_get x (2 * i);
      b ← array_get x (2 * i + 1);
      Ok (parts.1 ++ [a], parts.2 ++ [b]))
    (size x / 2) ([], [])) as (parts & Hrun & ->); [lia|done| |].
  - intros c parts Hc ->. cbn [fst snd].
    assert (2 * Z.to_nat c + 1 < length x)%nat as Hin.
    { pose proof (Nat.Div0.mul_div_le (length x) 2). lia. }
    destruct (samples_lookup x (Z.to_nat c) Hin) as (He & Ho).
    destruct (lookup_lt_is_Some_2 x (2 * Z.to_nat c)) as (a & Ha); [lia|].
    destruct (lookup_lt_is_Some_2 x (2 * Z.to_nat c + 1)) as (b & Hb); [lia|].
    rewrite (array_get_Ok x (2 * c) a), bind_Ok
      by (by replace (Z.to_nat (2 * c)) with (2 * Z.to_nat c)%nat by lia).
    rewrite (array_get_Ok x (2 * c + 1) b), bind_Ok
      by (by replace (Z.to_nat (2 * c + 1)) with (2 * Z.to_nat c + 1)%nat by lia).
    eexists. split; [done|].
    replace (Z.to_nat (c + 1)) with (S (Z.to_nat c)) by lia.
    rewrite Ha in He. rewrite Hb in Ho.
    by rewrite (take_S_r _ _ _ He), (take_S_r _ _ _ Ho).
  - rewrite Hrun. by rewrite !take_ge by lia.
Qed.

Lemma bind_ret {A : Type} (o : outcome A) : o ≫= (λ a, Ok a) = o.
Proof. by destruct o. Qed.

(** One pass over a single block that covers the array. *)
Lemma butterfly_pass_whole (g : Z → Z → Complex → Complex → Complex)
    (y : list Complex) :
  butterfly_pass g y 0 (size y) = Ok (stage g (size y) y).
Proof.
  pose proof (stage_loop_whole g y 1 (size y)) as Hstage.
  unfold for_range in Hstage. change (Z.to_nat 1) with 1%nat in Hstage.
  cbn [for_up] in Hstage. rewrite bind_ret in Hstage.
  change (0 * size y) with 0 in Hstage.
  apply Hstage; unfold size; lia.
Qed.

(** The decomposition test on a signal of even length: the reference
    transform against one stage over the two half transforms. *)
Lemma prop_fft_is_decomposed_dft_run (x : Signal) :
  Nat.Even (length x) →
  prop_fft_is_decomposed_dft x
  = Ok (residual_spec (dft_spec x)
          (stage forward_combine (size x)
             (dft_spec (even_samples x) ++ dft_spec (odd_samples x)))).
Proof.
  intros (h & Hh). destruct (samples_length x) as (Hle & Hlo).
  assert (length x / 2 = h)%nat as Hdiv.
  { rewrite Hh, Nat.mul_comm. by apply Nat.div_mul. }
  unfold prop_fft_is_decomposed_dft.
  rewrite partition_run, bind_Ok. cbn [fst snd].
  rewrite !dft_run, !bind_Ok.
  assert (size (dft_spec (even_samples x) ++ dft_spec (odd_samples x)) = size x)
    as Hsize.
  { unfold size. rewrite length_app, !dft_spec_length. lia. }
  rewrite fft_step_spectrum_pass, Hsize. rewrite <- Hsize at 1.
  rewrite butterfly_pass_whole, bind_Ok, Hsize.
  apply error_run. rewrite stage_length, dft_spec_length.
  unfold size in Hsize. lia.
Qed.

End Harness.

(** ** The tolerance of the differential tests

    [test_residue] compares a residual with [eps].  On which side of
    [eps] a residual falls depends on the magnitude of the samples; the
    runs below are evaluated in [binary32], the real signals
    [{7, 6, 5, 4}], [{1, 1}] and their multiples by [10^6] among them. *)










(** ** The dispatcher *)

Section Dispatcher.
Context `{FloatOps}.
Variable kernel_init : list cl_float2 → Z → Z → cl_float2.
Variable kernel_step : list cl_float2 → Z → Z → cl_float2.
Variable cl_status : list cl_call → cl_call → bool.
Hypothesis cl_success : ∀ h c, cl_status h c = true.

Local Abbreviation backend := (Fourier.backend cl_status).
Local Abbreviation set_arg := (Fourier.set_arg cl_status).
Local Abbreviation kernel_output := (Fourier.kernel_output kernel_init kernel_step).
Local Abbreviation execute := (Fourier.execute kernel_init kernel_step).
Local Abbreviation run_kernel := (Fourier.run_kernel kernel_init kernel_step cl_status).
Local Abbreviation staged := (Fourier.staged kernel_init kernel_step).

Lemma backend_ok (c : cl_call) (msg : string) (d : device) :
  backend c msg d
  = Ok (Device (buffer d) (init_args d) (step_args d) (calls d ++ [c])).
Proof. unfold Fourier.backend. by rewrite cl_success. Qed.

Lemma sample_count_ok (m : nat) :
  (m ≤ 30)%nat → Fourier.sample_count (Z.of_nat m) = Ok (2 ^ Z.of_nat m).
Proof.
  intros Hm. unfold Fourier.sample_count.
  by assert ((Z.of_nat m <? 31) = true) as -> by lia.
Qed.

Lemma pow2_bound (m b : nat) : (m ≤ b)%nat → 0 < 2 ^ Z.of_nat m ≤ 2 ^ Z.of_nat b.
Proof.
  intros Hm. split; [apply Z.pow_pos_nonneg; lia|].
  apply Z.pow_le_mono_r; lia.
Qed.

Lemma byte_count_ok (m : nat) :
  (m ≤ 30)%nat → Fourier.byte_count (Z.of_nat m) = Ok (2 ^ Z.of_nat m * 8).
Proof.
  intros Hm. unfold Fourier.byte_count. rewrite sample_count_ok, bind_Ok by done.
  pose proof (pow2_bound m 30 Hm). rewrite wrap64_small; [done|lia].
Qed.

(** Three bound arguments and one run: the calls of a dispatch, the output
    buffer filled by the kernel from the input buffer, the others kept. *)
Lemma dispatch_run (m : nat) (kernel : cl_kernel) (src dst : cl_mem) (v : Z)
    (d : device) :
  (m ≤ 30)%nat →
  ∃ d',
    (d1 ← set_arg kernel 0 (ArgMem src) d;
     d2 ← set_arg kernel 1 (ArgUint v) d1;
     d3 ← set_arg kernel 2 (ArgMem dst) d2;
     run_kernel (Z.of_nat m) kernel d3) = Ok d' ∧
    calls d' = calls d ++ Fourier.dispatch kernel src v dst (2 ^ Z.of_nat m) ∧
    buffer d' dst = kernel_output kernel (2 ^ Z.of_nat m) (buffer d src) v ∧
    ∀ mem, mem ≠ dst → buffer d' mem = buffer d mem.
Proof.
  intros Hm. unfold Fourier.set_arg, Fourier.run_kernel.
  rewrite !backend_ok, !bind_Ok.
  rewrite backend_ok, !bind_Ok. rewrite backend_ok, !bind_Ok.
  rewrite sample_count_ok, bind_Ok by done. rewrite backend_ok, bind_Ok.
  unfold Fourier.execute.
  destruct kernel; cbn [Fourier.bind_arg init_args step_args buffer calls].
  all: rewrite lookup_insert_ne, lookup_insert_ne, lookup_insert_eq by done.
  all: rewrite lookup_insert_ne, lookup_insert_eq by done.
  all: rewrite lookup_insert_eq.
  all: eexists; split; [reflexivity|].
  all: cbn [Fourier.write_buffer calls buffer].
  all: split; [by rewrite <- !app_assoc|].
  all: split; [by rewrite decide_True by done|].
  all: intros mem Hmem; by rewrite decide_False by done.
Qed.

Lemma ping_pong_swap (j : nat) : Fourier.ping_pong (S (S j)) = Fourier.ping_pong j.
Proof. reflexivity. Qed.

Lemma ping_pong_distinct (j : nat) : Fourier.ping_pong j ≠ Fourier.ping_pong (S j).
Proof.
  unfold Fourier.ping_pong. rewrite Nat.even_succ, <- Nat.negb_even.
  by destruct (Nat.even j).
Qed.

Lemma step_dispatches_cons (n : Z) (first count : nat) :
  Fourier.step_dispatches n first (S count)
  = Fourier.dispatch m_step_kernel (Fourier.ping_pong first) (2 ^ Z.of_nat first)
      (Fourier.ping_pong (S first)) n
    ++ Fourier.step_dispatches n (S first) count.
Proof. reflexivity. Qed.

(** With [r] stages to go, the loop dispatches [Step] for
    [B = 2^j, ..., 2^(m-1)], reading the buffer the previous dispatch wrote
    and writing the other one, and ends holding the last written buffer. *)
Lemma fft_loop_run (m : nat) :
  (m ≤ 30)%nat →
  ∀ (r j fuel : nat) (d : device),
    (j + r = m)%nat → (r ≤ fuel)%nat →
    ∃ d',
      Fourier.fft_loop kernel_init kernel_step cl_status fuel (Z.of_nat m)
        (Fourier.ping_pong j) (Fourier.ping_pong (S j)) (2 ^ Z.of_nat j) d
      = Ok (Fourier.ping_pong m, d') ∧
      calls d' = calls d ++ Fourier.step_dispatches (2 ^ Z.of_nat m) j r ∧
      buffer d' (Fourier.ping_pong m)
      = staged (2 ^ Z.of_nat m) (buffer d (Fourier.ping_pong j)) j r.
Proof.
  intros Hm. induction r as [|r IH]; intros j fuel d Hj Hfuel.
  - assert (j = m) as -> by lia. exists d.
    destruct fuel; cbn [Fourier.fft_loop];
      rewrite sample_count_ok, bind_Ok, Z.eqb_refl by done;
      (split; [done|]); (split; [|done]);
      unfold Fourier.step_dispatches; cbn; by rewrite app_nil_r.
  - destruct fuel as [|fuel]; [lia|]. cbn [Fourier.fft_loop].
    rewrite sample_count_ok, bind_Ok by done.
    assert ((2 ^ Z.of_nat j =? 2 ^ Z.of_nat m) = false) as ->.
    { apply Z.eqb_neq. intros Heq. apply Z.pow_inj_r in Heq; lia. }
    unfold Fourier.step.
    destruct (dispatch_run m m_step_kernel (Fourier.ping_pong j)
                (Fourier.ping_pong (S j)) (2 ^ Z.of_nat j) d Hm)
      as (d1 & -> & Hcalls1 & Hout1 & Hkeep1).
    rewrite bind_Ok, shiftl_1.
    assert (wrap32 (2 * 2 ^ Z.of_nat j) = 2 ^ Z.of_nat (S j)) as ->.
    { replace (Z.of_nat (S j)) with (Z.of_nat j + 1) by lia.
      rewrite Z.pow_add_r, Z.pow_1_r by lia.
      pose proof (pow2_bound j 29 ltac:(lia)).
      unfold wrap32. rewrite Z.mod_small; lia. }
    rewrite <- (ping_pong_swap j).
    destruct (IH (S j) fuel d1) as (d' & Hrun & Hcalls & Hout); [lia..|].
    exists d'. split; [done|]. split.
    + rewrite Hcalls, Hcalls1, step_dispatches_cons. by rewrite <- app_assoc.
    + rewrite Hout, Hout1. reflexivity.
Qed.

Lemma to_float2_vector_run (signal : list Complex) :
  to_float2_vector signal (size signal)
  = Ok ((λ z, (c_real z, c_imag z)) <$> signal).
Proof.
  unfold to_float2_vector, convert_to_float2.
  apply for_range_tabulate.
  - unfold new_float2_vector, size. by rewrite length_replicate, Nat2Z.id.
  - unfold new_float2_vector, size.
    by rewrite length_fmap, length_replicate, Nat2Z.id.
  - intros k buf x Hx Hk Hbuf. rewrite list_lookup_fmap in Hx.
    destruct (signal !! Z.to_nat k) as [z|] eqn:Hz; [|done].
    injection Hx as <-. rewrite (array_get_Ok _ _ _ Hz), bind_Ok.
    apply array_set_Ok. apply lookup_lt_Some in Hz.
    rewrite Hbuf. unfold new_float2_vector, size.
    rewrite length_replicate. lia.
Qed.

Lemma convert_to_complex_run (dst : list Complex) (src : list cl_float2) :
  length dst = length src →
  convert_to_complex dst src (size src) = Ok ((λ v, c_mk v.1 v.2) <$> src).
Proof.
  intros Hlen. unfold convert_to_complex.
  apply for_range_tabulate.
  - unfold size. by rewrite Hlen.
  - by rewrite length_fmap.
  - intros k buf x Hx Hk Hbuf. rewrite list_lookup_fmap in Hx.
    destruct (src !! Z.to_nat k) as [v|] eqn:Hv; [|done].
    injection Hx as <-. rewrite (array_get_Ok _ _ _ Hv), bind_Ok.
    apply array_set_Ok. apply lookup_lt_Some in Hv. lia.
Qed.

Lemma kernel_output_length (kernel : cl_kernel) (n : Z) (src : list cl_float2) (v : Z) :
  length (kernel_output kernel n src v) = Z.to_nat n.
Proof. destruct kernel; cbn; by rewrite length_fmap, length_seqZ. Qed.

Lemma staged_length (n : Z) (count : nat) :
  ∀ (first : nat) (y : list cl_float2),
    length y = Z.to_nat n → length (staged n y first count) = Z.to_nat n.
Proof.
  induction count as [|count IH]; intros first y Hy; [done|].
  cbn. apply IH. apply (kernel_output_length m_step_kernel).
Qed.

Lemma kernel_runs_steps (n : Z) (count : nat) :
  ∀ first, Fourier.kernel_runs (Fourier.step_dispatches n first count)
           = replicate count m_step_kernel.
Proof.
  induction count as [|count IH]; intros first; [done|].
  rewrite step_dispatches_cons. unfold Fourier.kernel_runs in *.
  rewrite omap_app, IH. done.
Qed.

Lemma step_sizes_steps (n : Z) (count : nat) :
  ∀ first, Fourier.step_sizes (Fourier.step_dispatches n first count)
           = (λ j, 2 ^ Z.of_nat j) <$> seq first count.
Proof.
  induction count as [|count IH]; intros first; [done|].
  rewrite step_dispatches_cons. unfold Fourier.step_sizes in *.
  rewrite omap_app, IH. done.
Qed.

(** C9. With every backend call succeeding, the full transform on
    [N = 2^m] samples makes exactly these calls, in this order: the upload
    of the input to X; one [Init] dispatch from X into Y1; [m = log2 N]
    [Step] dispatches with [B = 1, 2, 4, ..., N/2], stage [j] reading the
    buffer stage [j - 1] wrote and writing the other buffer of the pair
    Y1, Y2; the download of the buffer written last; [clFinish].  The
    result is that buffer: [Init] of the input followed by the stages. *)
Theorem fourier_fft_protocol (m fuel : nat) (spectrum signal : list Complex)
    (d : device) :
  (m ≤ 30)%nat → (m ≤ fuel)%nat →
  size signal = 2 ^ Z.of_nat m → size spectrum = 2 ^ Z.of_nat m →
  let n := 2 ^ Z.of_nat m in
  let x_buffer := (λ z, (c_real z, c_imag z)) <$> signal in
  let y := staged n (kernel_output m_init_kernel n x_buffer (Z.of_nat m)) 0 m in
  (∃ d',
     Fourier.fft kernel_init kernel_step cl_status fuel (Z.of_nat m)
       spectrum signal d
     = Ok ((λ v, c_mk v.1 v.2) <$> y, d') ∧
     calls d' = calls d ++ Fourier.transform_calls m x_buffer) ∧
  Fourier.transform_calls m x_buffer
  = [clEnqueueWriteBuffer m_x_mem (n * 8) x_buffer]
    ++ Fourier.dispatch m_init_kernel m_x_mem (Z.of_nat m) m_y1_mem n
    ++ (j ← seq 0 m;
        Fourier.dispatch m_step_kernel (Fourier.ping_pong j) (2 ^ Z.of_nat j)
          (Fourier.ping_pong (S j)) n)
    ++ [clEnqueueReadBuffer (Fourier.ping_pong m) (n * 8); clFinish] ∧
  Fourier.kernel_runs (Fourier.transform_calls m x_buffer)
  = m_init_kernel :: replicate m m_step_kernel ∧
  Fourier.step_sizes (Fourier.transform_calls m x_buffer)
  = (λ j, 2 ^ Z.of_nat j) <$> seq 0 m ∧
  (∀ j, Fourier.ping_pong j ≠ Fourier.ping_pong (S j) ∧
        Fourier.ping_pong (S (S j)) = Fourier.ping_pong j) ∧
  Fourier.ping_pong 0 = m_y1_mem.
Proof.
  intros Hm Hfuel Hsignal Hspectrum n x_buffer y.
  pose proof (pow2_bound m 30 Hm) as Hn.
  split; [|split; [done|split; [|split; [|split; [|done]]]]].
  - unfold Fourier.fft. rewrite !sample_count_ok, bind_Ok by done.
    rewrite <- Hsignal, to_float2_vector_run, bind_Ok. fold x_buffer.
    unfold Fourier.load. rewrite sample_count_ok, bind_Ok by done.
    assert (size x_buffer = 2 ^ Z.of_nat m) as Hx.
    { unfold x_buffer, size. rewrite length_fmap. exact Hsignal. }
    rewrite Hx, Z.eqb_refl. unfold assert at 1. rewrite bind_Ok.
    rewrite byte_count_ok, bind_Ok, backend_ok, bind_Ok by done.
    set (d1 := Fourier.write_buffer _ _ _). rewrite bind_Ok.
    assert (wrap32 (Z.of_nat m) = Z.of_nat m) as ->.
    { unfold wrap32. rewrite Z.mod_small; lia. }
    unfold Fourier.init.
    destruct (dispatch_run m m_init_kernel m_x_mem m_y1_mem (Z.of_nat m) d1 Hm)
      as (d2 & -> & Hcalls2 & Hout2 & Hkeep2).
    rewrite bind_Ok.
    destruct (fft_loop_run m Hm m 0 fuel d2) as (d3 & Hrun & Hcalls3 & Hout3);
      [lia..|].
    change (Fourier.ping_pong 0) with m_y1_mem in Hrun, Hout3.
    change (Fourier.ping_pong 1) with m_y2_mem in Hrun.
    change (2 ^ Z.of_nat 0) with 1 in Hrun.
    rewrite Hrun, !bind_Ok. cbn [fst snd].
    unfold Fourier.store.
    rewrite byte_count_ok, bind_Ok, backend_ok, !bind_Ok by done.
    cbn [fst snd buffer]. unfold Fourier.finish. rewrite backend_ok, bind_Ok.
    assert (buffer d3 (Fourier.ping_pong m) = y) as Hy.
    { rewrite Hout3, Hout2. unfold d1. cbn. done. }
    rewrite Hy.
    rewrite convert_to_complex_run, bind_Ok.
    2:{ unfold y. rewrite staged_length.
        - unfold size in Hspectrum. lia.
        - apply (kernel_output_length m_init_kernel). }
    eexists. split; [reflexivity|]. cbn [calls].
    rewrite Hcalls3, Hcalls2. unfold d1. cbn [calls Fourier.write_buffer].
    unfold Fourier.transform_calls. by rewrite <- !app_assoc.
  - unfold Fourier.transform_calls, Fourier.kernel_runs.
    rewrite !omap_app. fold (Fourier.kernel_runs (Fourier.step_dispatches (2 ^ Z.of_nat m) 0 m)).
    rewrite kernel_runs_steps. cbn. by rewrite app_nil_r.
  - unfold Fourier.transform_calls, Fourier.step_sizes.
    rewrite !omap_app. fold (Fourier.step_sizes (Fourier.step_dispatches (2 ^ Z.of_nat m) 0 m)).
    rewrite step_sizes_steps. cbn. by rewrite app_nil_r.
  - intros j. split; [apply ping_pong_distinct|apply ping_pong_swap].
Qed.

End Dispatcher.

Lemma fourier_fft_protocol_witness :
  ∃ spectrum' d',
    Fourier.fft (H:=symbolic) copy_kernel copy_kernel (λ _ _, true) 2 2
      [sample 0; sample 0; sample 0; sample 0]
      [sample 1; sample 2; sample 3; sample 4] fresh_device
    = Ok (spectrum', d') ∧
    Fourier.kernel_runs (calls d')
    = [m_init_kernel; m_step_kernel; m_step_kernel] ∧
    Fourier.step_sizes (calls d') = [1; 2].
Proof.
  destruct (fourier_fft_protocol (H:=symbolic) copy_kernel copy_kernel
              (λ _ _, true) (λ _ _, eq_refl) 2 2
              [sample 0; sample 0; sample 0; sample 0]
              [sample 1; sample 2; sample 3; sample 4] fresh_device)
    as ((d' & Hrun & Hcalls) & _ & Hruns & Hsizes & _); [lia|lia|done|done|].
  eexists _, d'. split; [exact Hrun|].
  rewrite Hcalls. cbn [calls fresh_device app].
  split; [exact Hruns|exact Hsizes].
Defined.

(** * Further properties of the code *)

(** ** reverse_bits *)

Lemma small_bits_false (k x b : Z) :
  0 ≤ x < 2 ^ k → k ≤ b → Z.testbit x b = false.
Proof.
  intros Hx Hb. destruct (decide (0 ≤ k)) as [Hk|Hk].
  - rewrite <- (Z.mod_small x (2 ^ k)) by done.
    apply Z.mod_pow2_bits_high. lia.
  - rewrite Z.pow_neg_r in Hx by lia. lia.
Qed.

Lemma bitrev_involutive (k : nat) (n : Z) :
  0 ≤ n < 2 ^ Z.of_nat k → bitrev k (bitrev k n) = n.
Proof.
  intros Hn. pose proof (bitrev_range k n) as Hr.
  pose proof (bitrev_range k (bitrev k n)) as Hrr.
  apply Z.bits_inj'. intros b Hb.
  destruct (decide (b < Z.of_nat k)) as [Hlt|Hge].
  - rewrite !bitrev_testbit by lia. f_equal. lia.
  - rewrite (small_bits_false (Z.of_nat k) n), (small_bits_false (Z.of_nat k) (bitrev k _));
      (done || lia).
Qed.

Lemma power_of_two_nat (max : Z) :
  power_of_two max → max < 2 ^ 64 → ∃ k : nat, (k ≤ 63)%nat ∧ max = 2 ^ Z.of_nat k.
Proof.
  intros (e & He & ->) Hmax. exists (Z.to_nat e). rewrite Z2Nat.id by done.
  split; [|done]. apply Z.pow_lt_mono_r_iff in Hmax; lia.
Qed.

(** X1. With a bound [2^k] ([k ≤ 63]) the loop of [reverse_bits] ends
    after [k] iterations, for every [n]; the result lies below the bound
    and its bit [b] is bit [k - 1 - b] of [n], so bits of [n] from position
    [k] upwards play no part. *)
Theorem reverse_bits_reverses (fuel k : nat) (n : Z) :
  (k ≤ 63)%nat → (k ≤ fuel)%nat →
  ∃ r, reverse_bits fuel n (2 ^ Z.of_nat k) = Ok r ∧
       reverse_bits fuel (n mod 2 ^ Z.of_nat k) (2 ^ Z.of_nat k) = Ok r ∧
       0 ≤ r < 2 ^ Z.of_nat k ∧
       ∀ b, 0 ≤ b < Z.of_nat k →
         Z.testbit r b = Z.testbit n (Z.of_nat k - 1 - b).
Proof.
  intros Hk Hfuel. exists (bitrev k n).
  rewrite !reverse_bits_pow2 by done.
  split; [done|]. split; [|split; [apply bitrev_range|by apply bitrev_testbit]].
  f_equal. pose proof (bitrev_range k n). pose proof (bitrev_range k (n mod 2 ^ Z.of_nat k)).
  apply Z.bits_inj'. intros b Hb.
  destruct (decide (b < Z.of_nat k)) as [Hlt|Hge].
  - rewrite !bitrev_testbit by lia. apply Z.mod_pow2_bits_low. lia.
  - rewrite !(small_bits_false (Z.of_nat k)); (done || lia).
Qed.

Lemma reverse_bits_reverses_witness :
  ∃ r, reverse_bits 3 6 8 = Ok r ∧ reverse_bits 3 (6 mod 8) 8 = Ok r ∧
       0 ≤ r < 8 ∧
       ∀ b, 0 ≤ b < 3 → Z.testbit r b = Z.testbit 6 (3 - 1 - b).
Proof.
  exact (reverse_bits_reverses 3 3 6 ltac:(lia) ltac:(lia)).
Defined.

(** X2. Below a bound [2^k], reversing twice gives the index back, and two
    different indices never reverse to the same value: on the indices
    [0 .. 2^k) [reverse_bits] is a permutation that is its own inverse. *)
Theorem reverse_bits_involution (fuel k : nat) (n : Z) :
  (k ≤ 63)%nat → (k ≤ fuel)%nat → 0 ≤ n < 2 ^ Z.of_nat k →
  ∃ r, reverse_bits fuel n (2 ^ Z.of_nat k) = Ok r ∧
       reverse_bits fuel r (2 ^ Z.of_nat k) = Ok n ∧
       ∀ n', 0 ≤ n' < 2 ^ Z.of_nat k →
         reverse_bits fuel n' (2 ^ Z.of_nat k) = Ok r → n' = n.
Proof.
  intros Hk Hfuel Hn. exists (bitrev k n).
  rewrite !reverse_bits_pow2 by done.
  split; [done|]. split; [by rewrite bitrev_involutive|].
  intros n' Hn'. rewrite reverse_bits_pow2 by done. intros Heq.
  injection Heq as Heq.
  by rewrite <- (bitrev_involutive k n'), Heq, bitrev_involutive.
Qed.

Lemma reverse_bits_involution_witness :
  ∃ r, reverse_bits 8 0xAA 0x100 = Ok r ∧ reverse_bits 8 r 0x100 = Ok 0xAA ∧
       ∀ n', 0 ≤ n' < 0x100 → reverse_bits 8 n' 0x100 = Ok r → n' = 0xAA.
Proof.
  exact (reverse_bits_involution 8 8 0xAA ltac:(lia) ltac:(lia) ltac:(lia)).
Defined.

Lemma reverse_bits_loop_at_zero (fuel : nat) (n result : Z) :
  reverse_bits_loop fuel 0 n 0 result = Ok result.
Proof. by destruct fuel. Qed.

(** With the bound 0 the counter runs through all 64 powers of two and
    then wraps to 0, which ends the loop. *)
Lemma reverse_bits_loop_zero_bound (m : nat) :
  ∀ (fuel : nat) (j n result : Z),
    (S m ≤ fuel)%nat → 0 ≤ j → j + Z.of_nat (S m) = 64 → 0 ≤ result < 2 ^ j →
    reverse_bits_loop fuel (2 ^ j) n 0 result
    = Ok (result * 2 ^ Z.of_nat (S m) + bitrev (S m) n).
Proof.
  induction m as [|m IH]; intros fuel j n result Hfuel Hj Hm Hres.
  all: destruct fuel as [|fuel]; [lia|]; cbn [reverse_bits_loop].
  all: pose proof (Z.pow_pos_nonneg 2 j ltac:(lia) Hj) as Hpos.
  all: assert ((2 ^ j =? 0) = false) as -> by lia.
  all: assert (2 ^ j ≤ 2 ^ 63) by (apply Z.pow_le_mono_r; lia).
  all: rewrite !shiftl_1, shiftr_1, (wrap64_small (2 * result)) by lia.
  all: rewrite lor_low_bit; pose proof (Z.mod_pos_bound n 2).
  - assert (j = 63) as -> by lia.
    change (wrap64 (2 * 2 ^ 63)) with 0.
    rewrite reverse_bits_loop_at_zero. f_equal. cbn. lia.
  - assert (2 ^ j ≤ 2 ^ 62) by (apply Z.pow_le_mono_r; lia).
    rewrite (wrap64_small (2 * 2 ^ j)) by lia.
    replace (2 * 2 ^ j) with (2 ^ (j + 1)) by (rewrite Z.pow_add_r; lia).
    rewrite IH; [|lia|lia|lia|rewrite Z.pow_add_r; lia].
    f_equal. cbn [bitrev].
    replace (Z.of_nat (S (S m))) with (Z.of_nat (S m) + 1) by lia.
    rewrite Z.pow_add_r, Z.pow_1_r by lia. lia.
Qed.

Lemma reverse_bits_loop_returns (max : Z) :
  max ≠ 0 →
  ∀ (fuel : nat) (i n result r : Z),
    i = 0 ∨ (∃ j, 0 ≤ j ≤ 63 ∧ i = 2 ^ j) →
    reverse_bits_loop fuel i n max result = Ok r → power_of_two max.
Proof.
  intros Hmax. induction fuel as [|fuel IH]; intros i n result r Hi;
    cbn [reverse_bits_loop]; destruct (Z.eqb_spec i max) as [<-|Hne].
  1,3: intros _; destruct Hi as [->|(j & Hj & ->)]; [done|exists j; lia].
  - done.
  - apply IH. rewrite shiftl_1. destruct Hi as [->|(j & Hj & ->)]; [by left|].
    destruct (decide (j = 63)) as [->|]; [by left|right].
    exists (j + 1). split; [lia|].
    rewrite Z.pow_add_r, Z.pow_1_r by lia.
    rewrite wrap64_small; [lia|].
    assert (2 ^ j ≤ 2 ^ 62) by (apply Z.pow_le_mono_r; lia). lia.
Qed.

(** X3. [reverse_bits] returns exactly for the bounds 0 and [2^k]: with
    any other bound below [2^64] the loop never ends, whatever [n].  With
    the bound 0 it ends after 64 iterations and returns the reversal of all
    64 bits of [n]. *)
Theorem reverse_bits_terminates_iff (n max : Z) :
  0 ≤ max < 2 ^ 64 →
  ((∃ fuel r, reverse_bits fuel n max = Ok r) ↔ (max = 0 ∨ power_of_two max)) ∧
  (max ≠ 0 → (¬ power_of_two max) → ∀ fuel, reverse_bits fuel n max = OutOfFuel) ∧
  (∀ fuel, (64 ≤ fuel)%nat → reverse_bits fuel n 0 = Ok (bitrev 64 n)).
Proof.
  intros Hmax.
  assert (∀ fuel, (64 ≤ fuel)%nat → reverse_bits fuel n 0 = Ok (bitrev 64 n))
    as Hzero.
  { intros fuel Hfuel. unfold reverse_bits. change 1 with (2 ^ 0) at 1.
    rewrite (reverse_bits_loop_zero_bound 63); [f_equal; lia|lia..]. }
  split; [split|split; [|done]].
  - intros (fuel & r & Hrun).
    destruct (decide (max = 0)) as [?|Hne]; [by left|right].
    apply (reverse_bits_loop_returns max Hne fuel 1 n 0 r); [|done].
    right. exists 0. split; [lia|done].
  - intros [->|Hpow].
    + exists 64%nat, (bitrev 64 n). by apply Hzero.
    + destruct (power_of_two_nat max Hpow) as (k & Hk & ->); [lia|].
      exists k, (bitrev k n). by apply reverse_bits_pow2.
  - intros Hne Hnot fuel. by apply reverse_bits_diverges.
Qed.

Lemma reverse_bits_terminates_iff_witness :
  reverse_bits 64 1 0 = Ok (2 ^ 63).
Proof.
  exact (proj2 (proj2 (reverse_bits_terminates_iff 1 0 ltac:(lia))) 64%nat
           ltac:(lia)).
Defined.

(** ** The permutation and the forward transform *)

Section Forward.
Context `{FloatOps}.

Lemma bit_reversal_involutive (k : nat) (x : list Complex) :
  size x = 2 ^ Z.of_nat k → bit_reversal k (bit_reversal k x) = x.
Proof.
  intros Hsize. apply list_eq. intros j.
  destruct (decide (j < length x)%nat) as [Hj|Hj].
  - assert (0 ≤ Z.of_nat j < size x) as Hj' by (unfold size; lia).
    assert (size (bit_reversal k x) = 2 ^ Z.of_nat k) as Hsize'.
    { unfold size. by rewrite bit_reversal_length. }
    destruct (bit_reversal_lookup k (bit_reversal k x) (Z.of_nat j))
      as (Hlook & Hr); [done|by rewrite Hsize', <- Hsize|].
    rewrite Nat2Z.id in Hlook. rewrite Hlook.
    destruct (bit_reversal_lookup k x (bitrev k (Z.of_nat j)))
      as (Hlook' & _); [done|by rewrite Hsize' in Hr; rewrite Hsize|].
    rewrite Hlook', bitrev_involutive, Nat2Z.id by lia. done.
  - rewrite !lookup_ge_None_2; [done|lia|].
    rewrite !bit_reversal_length. lia.
Qed.

(** X4. On [2^k] elements [fft_init] fills the destination with the
    source in bit-reversed order, whatever the destination held; applied
    to its own result it gives the source back. *)
Theorem fft_init_round_trip (fuel k : nat) (dst dst' src : list Complex) :
  size src = 2 ^ Z.of_nat k → length dst = length src → length dst' = length src →
  (k ≤ 63)%nat → (k ≤ fuel)%nat →
  ∃ y, fft_init fuel dst src (size src) = Ok y ∧
       length y = length src ∧
       (∀ j, 0 ≤ j < size src →
          y !! Z.to_nat j = src !! Z.to_nat (bitrev k j)) ∧
       fft_init fuel dst' y (size src) = Ok src.
Proof.
  intros Hsize Hdst Hdst' Hk Hfuel. exists (bit_reversal k src).
  unfold fft_init.
  rewrite (bit_reversal_loop fuel k src dst) by done.
  split; [done|]. split; [apply bit_reversal_length|].
  split; [intros j Hj; by apply bit_reversal_lookup|].
  assert (size src = size (bit_reversal k src)) as Hsame.
  { unfold size. by rewrite bit_reversal_length. }
  rewrite Hsame.
  rewrite (bit_reversal_loop fuel k (bit_reversal k src) dst');
    [|by rewrite <- Hsame|by rewrite bit_reversal_length|done..].
  by rewrite bit_reversal_involutive.
Qed.

(** X5. The reference transform has no restriction on the length: on
    every signal, the empty one included, [dft] returns a spectrum of the
    same length, and output [k] is the sum, taken from zero in index order,
    of [signal[n] * exp(-i * 2 * pi * k * n / N)]. *)
Theorem dft_any_length (signal : Signal) :
  ∃ spectrum, dft signal = Ok spectrum ∧
    length spectrum = length signal ∧
    (∀ k, 0 ≤ k < size signal →
       spectrum !! Z.to_nat k
       = Some (foldl (λ c nx, c_add c (c_mul nx.2 (c_exp
                 (c_divf (c_mulf (c_mulf (c_mulf (c_mulf (c_neg c_i) f_two) f_pi)
                                         (f_of_Z k)) (f_of_Z nx.1))
                         (f_of_Z (size signal))))))
               c_zero (indexed signal))) ∧
    (∀ n x, indexed signal !! n = Some x ↔
            x.1 = Z.of_nat n ∧ signal !! n = Some x.2).
Proof.
  exists (dft_spec signal). split; [apply dft_run|].
  split; [apply length_imap|]. split.
  - intros k Hk. unfold dft_spec. rewrite list_lookup_imap.
    destruct (lookup_in_range signal k Hk) as (v & ->). cbn.
    by rewrite Z2Nat.id by lia.
  - intros n x. unfold indexed. rewrite list_lookup_imap.
    destruct x as [i w]. destruct (signal !! n) as [v|]; cbn; split.
    + intros [= <- <-]. done.
    + intros (-> & [= ->]). done.
    + done.
    + intros (_ & ?). done.
Qed.

Lemma foldl_stage_length (g : Z → Z → Complex → Complex → Complex)
    (sizes : list Z) :
  ∀ y, length (foldl (λ y S, stage g S y) y sizes) = length y.
Proof.
  induction sizes as [|S sizes IH]; intros y; [done|].
  cbn [foldl]. by rewrite IH, stage_length.
Qed.

(** X6. On [2^k] samples ([k ≤ 63]) the forward transform returns, each
    of its loops ending within [k] iterations: the result has the length
    of the input and is the bit-reversal permutation of the input followed
    by the [k] stages of block size 2, 4, ..., [2^k], in this order.  Up
    to [2^30] samples every twiddle index and block size reaches [W]
    unchanged. *)
Theorem fft_permute_then_stages (k fuel : nat) (signal : Signal) :
  size signal = 2 ^ Z.of_nat k → (k ≤ 63)%nat → (k ≤ fuel)%nat →
  ∃ spectrum,
    fft fuel signal = Ok spectrum ∧
    length spectrum = length signal ∧
    spectrum = foldl (λ y S, stage forward_combine S y)
                 (bit_reversal k signal) (block_sizes 1 k) ∧
    (length (block_sizes 1 k) = k ∧
     ∀ e, (e < k)%nat → block_sizes 1 k !! e = Some (2 ^ (1 + Z.of_nat e))) ∧
    (∀ S y t p, 0 ≤ t → 0 ≤ p < S / 2 → (t + 1) * S ≤ size y →
       ∃ a b,
         y !! Z.to_nat (t * S + p) = Some a ∧
         y !! Z.to_nat (t * S + p + S / 2) = Some b ∧
         stage forward_combine S y !! Z.to_nat (t * S + p)
           = Some (c_add a (c_mul (W p S) b)) ∧
         stage forward_combine S y !! Z.to_nat (t * S + p + S / 2)
           = Some (c_add a (c_mul (W (p + S / 2) S) b))) ∧
    ((k ≤ 30)%nat → ∀ S p, S ∈ block_sizes 1 k → 0 ≤ p < S →
       W p S = c_exp (c_divf (c_mulf (c_mulf (c_mulf (c_neg c_i) f_two) f_pi)
                                     (f_of_Z p)) (f_of_Z S))).
Proof.
  intros Hsize Hk Hfuel. eexists. split; [by apply fft_structure|].
  split; [by rewrite foldl_stage_length, bit_reversal_length|].
  split; [done|]. split.
  { split; [unfold block_sizes; rewrite length_fmap, length_seqZ; lia|].
    intros e He. by apply block_sizes_lookup. }
  split; [intros S y t p; apply stage_pair|].
  intros Hk30 S p HS Hp. unfold block_sizes in HS.
  apply list_elem_of_fmap in HS as (e & -> & He).
  apply elem_of_seqZ in He.
  assert (2 ^ e ≤ 2 ^ 30) by (apply Z.pow_le_mono_r; lia).
  unfold W. by rewrite !to_int_small by lia.
Qed.

(** X7. A forward stage over blocks [0 .. transform_count) keeps the
    length of the array and leaves every element behind the last block as
    it was; with an odd block size the last element of each block also
    stays. *)
Theorem fft_step_frame (y : list Complex) (transform_count S : Z) :
  0 ≤ transform_count → 0 ≤ S → transform_count * S ≤ size y →
  ∃ y', fft_step y 0 transform_count S = Ok y' ∧ length y' = length y ∧
    (∀ j, transform_count * S ≤ j → y' !! Z.to_nat j = y !! Z.to_nat j) ∧
    (S mod 2 = 1 → ∀ t, 0 ≤ t < transform_count →
       y' !! Z.to_nat (t * S + S - 1) = y !! Z.to_nat (t * S + S - 1)).
Proof.
  intros Htc HS Hfit. rewrite fft_step_loop.
  destruct (stage_loop_spec forward_combine y transform_count S)
    as (y' & Hrun & Hlen & Hy'); [done..|].
  exists y'. split; [done|]. split; [done|]. split.
  - intros j Hj. rewrite Hy' by nia. by rewrite decide_False by lia.
  - intros Hodd t Ht. pose proof (Z.div_mod S 2 ltac:(lia)) as Hdiv.
    rewrite Hy' by nia. rewrite decide_True by nia.
    unfold stage_at. rewrite (in_block_mod S t) by lia.
    by rewrite !decide_False by lia.
Qed.

End Forward.

Lemma fft_init_round_trip_witness :
  fft_init 2 [sample 0; sample 0; sample 0; sample 0]
    [sample 1; sample 3; sample 2; sample 4] 4
  = Ok [sample 1; sample 2; sample 3; sample 4].
Proof.
  destruct (fft_init_round_trip 2 2
              [sample 9; sample 9; sample 9; sample 9]
              [sample 0; sample 0; sample 0; sample 0]
              [sample 1; sample 2; sample 3; sample 4])
    as (y & Hy & _ & _ & Hback); [done|done|done|lia|lia|].
  vm_compute in Hy. injection Hy as <-. exact Hback.
Defined.

Lemma fft_permute_then_stages_witness :
  ∃ spectrum, fft 1 [sample 1; sample 2] = Ok spectrum ∧
              length spectrum = 2%nat.
Proof.
  destruct (fft_permute_then_stages 1 1 [sample 1; sample 2])
    as (spectrum & Hrun & Hlen & _); [done|lia|lia|].
  exists spectrum. exact (conj Hrun Hlen).
Defined.

Lemma fft_step_frame_witness :
  ∃ y', fft_step [sample 1; sample 2; sample 3] 0 1 2 = Ok y' ∧
        y' !! 2%nat = Some (sample 3).
Proof.
  destruct (fft_step_frame [sample 1; sample 2; sample 3] 1 2)
    as (y' & Hrun & _ & Hkeep & _); [lia|lia|by vm_compute|].
  exists y'. split; [exact Hrun|]. exact (Hkeep 2 ltac:(lia)).
Defined.

(** ** The differential tests on good and bad lengths *)

Section HarnessLengths.
Context `{FloatOps}.

(** X8. [prop_inverse_dft] returns its residual on a signal of any length.
    The three tests that go through [fft] or [ifft] return theirs on [2^k]
    samples; on a non-empty signal whose length is not a power of two they
    never return, since the transform under test does not. *)
Theorem differential_tests_by_length (fuel : nat) (x : Signal) :
  prop_inverse_dft x = Ok (residual_spec x (idft_spec (dft_spec x))) ∧
  (∀ k : nat, size x = 2 ^ Z.of_nat k → (k ≤ 62)%nat → (k ≤ fuel)%nat →
     prop_inverse_fft fuel x = Ok (residual_spec x (ifft_spec k (fft_spec k x))) ∧
     prop_dft_equal_fft fuel x = Ok (residual_spec (dft_spec x) (fft_spec k x)) ∧
     prop_idft_equal_ifft fuel x
     = Ok (residual_spec (idft_spec x) (ifft_spec k x))) ∧
  (x ≠ [] → (¬ power_of_two (size x)) →
     prop_inverse_fft fuel x = OutOfFuel ∧
     prop_dft_equal_fft fuel x = OutOfFuel ∧
     prop_idft_equal_ifft fuel x = OutOfFuel).
Proof.
  split; [apply prop_inverse_dft_run|]. split.
  - intros k Hsize Hk Hfuel.
    rewrite (prop_inverse_fft_run k), (prop_dft_equal_fft_run k),
      (prop_idft_equal_ifft_run k) by (done || lia). done.
  - intros Hne Hpow.
    unfold prop_inverse_fft, prop_dft_equal_fft, prop_idft_equal_ifft.
    rewrite dft_run, idft_run, !bind_Ok.
    by rewrite fft_diverges, ifft_diverges.
Qed.

(** X9. The decomposition test needs an even length.  On an odd number of
    samples the two half transforms hold one sample less than the
    reference transform, and the run ends in the assertion of [operator-];
    on an even number it returns the residual between the reference
    transform and one stage of block size [N] over the two half
    transforms. *)
Theorem decomposition_test_by_parity (x : Signal) :
  (Nat.Odd (length x) → prop_fft_is_decomposed_dft x = AssertFail) ∧
  (Nat.Even (length x) →
     prop_fft_is_decomposed_dft x
     = Ok (residual_spec (dft_spec x)
             (stage forward_combine (size x)
                (dft_spec (even_samples x) ++ dft_spec (odd_samples x))))).
Proof.
  split; [|apply prop_fft_is_decomposed_dft_run].
  intros (h & Hh). destruct (samples_length x) as (Hle & Hlo).
  assert (length x / 2 = h)%nat as Hdiv.
  { rewrite Hh, Nat.mul_comm, Nat.div_add_l by done. cbn. lia. }
  unfold prop_fft_is_decomposed_dft.
  rewrite partition_run, bind_Ok. cbn [fst snd].
  rewrite !dft_run, !bind_Ok.
  rewrite fft_step_spectrum_pass, butterfly_pass_whole, !bind_Ok.
  unfold error. rewrite signal_sub_mismatch; [done|].
  rewrite stage_length, length_app, !dft_spec_length. lia.
Qed.

End HarnessLengths.

Lemma differential_tests_by_length_witness :
  (prop_inverse_fft 1 [sample 1; sample 2]
   = Ok (residual_spec [sample 1; sample 2]
           (ifft_spec 1 (fft_spec 1 [sample 1; sample 2])))) ∧
  prop_dft_equal_fft 1 [sample 1; sample 2; sample 3] = OutOfFuel.
Proof.
  split.
  - destruct (differential_tests_by_length 1 [sample 1; sample 2])
      as (_ & Hgood & _).
    exact (proj1 (Hgood 1%nat eq_refl ltac:(lia) ltac:(lia))).
  - destruct (differential_tests_by_length 1 [sample 1; sample 2; sample 3])
      as (_ & _ & Hbad).
    exact (proj1 (proj2 (Hbad ltac:(done) not_power_of_two_3))).
Defined.

Lemma decomposition_test_by_parity_witness :
  prop_fft_is_decomposed_dft [sample 1; sample 2; sample 3] = AssertFail ∧
  ∃ r, prop_fft_is_decomposed_dft [sample 1; sample 2] = Ok r.
Proof.
  split.
  - apply (proj1 (decomposition_test_by_parity [sample 1; sample 2; sample 3])).
    exists 1%nat. reflexivity.
  - eexists.
    apply (proj2 (decomposition_test_by_parity [sample 1; sample 2])).
    exists 1%nat. reflexivity.
Defined.

(** ** Failing backend calls *)

Section FailStop.
Context `{FloatOps}.
Variable kernel_init : list cl_float2 → Z → Z → cl_float2.
Variable kernel_step : list cl_float2 → Z → Z → cl_float2.
Variable cl_status : list cl_call → cl_call → bool.

Local Abbreviation first_failure := (Fourier.first_failure cl_status).
Local Abbreviation outcome_after := (Fourier.outcome_after cl_status).
Local Abbreviation kernel_output := (Fourier.kernel_output kernel_init kernel_step).
Local Abbreviation staged := (Fourier.staged kernel_init kernel_step).

Lemma first_failure_app (cs1 cs2 : list cl_call) :
  ∀ h, first_failure h (cs1 ++ cs2)
       = match first_failure h cs1 with
         | Some c => Some c
         | None => first_failure (h ++ cs1) cs2
         end.
Proof.
  induction cs1 as [|c cs1 IH]; intros h; cbn [app Fourier.first_failure].
  - by rewrite app_nil_r.
  - destruct (cl_status h c); [|done]. by rewrite IH, <- app_assoc.
Qed.

Lemma outcome_after_bind {A B : Type} (h cs1 cs2 : list cl_call)
    (o : outcome A) (f : A → outcome B) (P : A → Prop) (Q : B → Prop) :
  outcome_after h cs1 o P →
  (∀ a, P a → outcome_after (h ++ cs1) cs2 (f a) Q) →
  outcome_after h (cs1 ++ cs2) (o ≫= f) Q.
Proof.
  unfold Fourier.outcome_after. rewrite first_failure_app.
  destruct (first_failure h cs1) as [c|].
  - by intros -> _.
  - intros (a & -> & Ha) Hf. rewrite bind_Ok. by apply Hf.
Qed.

Lemma outcome_after_pure {A B : Type} (h cs : list cl_call)
    (o : outcome A) (g : A → B) (P : A → Prop) (Q : B → Prop) :
  outcome_after h cs o P → (∀ a, P a → Q (g a)) →
  outcome_after h cs (a ← o; Ok (g a)) Q.
Proof.
  unfold Fourier.outcome_after. destruct (first_failure h cs) as [c|].
  - by intros -> _.
  - intros (a & -> & Ha) Hg. rewrite bind_Ok. eauto.
Qed.

Lemma outcome_after_weaken {A : Type} (h cs : list cl_call)
    (o : outcome A) (P Q : A → Prop) :
  outcome_after h cs o P → (∀ a, P a → Q a) → outcome_after h cs o Q.
Proof.
  unfold Fourier.outcome_after. destruct (first_failure h cs) as [c|]; [done|].
  intros (a & -> & Ha) HPQ. eauto.
Qed.

Lemma backend_after (c : cl_call) (d : device) :
  outcome_after (calls d) [c]
    (Fourier.backend cl_status c (Fourier.failure_message c) d)
    (λ d', d' = Device (buffer d) (init_args d) (step_args d) (calls d ++ [c])).
Proof.
  unfold Fourier.outcome_after, Fourier.backend. cbn [Fourier.first_failure].
  destruct (cl_status (calls d) c); eauto.
Qed.

Lemma set_arg_after (kernel : cl_kernel) (i : Z) (a : kernel_arg) (d : device) :
  outcome_after (calls d) [clSetKernelArg kernel i a]
    (Fourier.set_arg cl_status kernel i a d)
    (λ d', d' = Fourier.bind_arg kernel i a
                  (Device (buffer d) (init_args d) (step_args d)
                          (calls d ++ [clSetKernelArg kernel i a]))).
Proof.
  unfold Fourier.set_arg.
  apply (outcome_after_pure _ _ _ _ _ _ (backend_after (clSetKernelArg kernel i a) d)).
  by intros d' ->.
Qed.

(** A dispatch under any backend: fatal at its first failed call, else
    the output buffer holds the kernel's output and the others are kept. *)
Lemma dispatch_after (m : nat) (kernel : cl_kernel) (src dst : cl_mem) (v : Z)
    (d : device) :
  (m ≤ 30)%nat →
  outcome_after (calls d) (Fourier.dispatch kernel src v dst (2 ^ Z.of_nat m))
    (d1 ← Fourier.set_arg cl_status kernel 0 (ArgMem src) d;
     d2 ← Fourier.set_arg cl_status kernel 1 (ArgUint v) d1;
     d3 ← Fourier.set_arg cl_status kernel 2 (ArgMem dst) d2;
     Fourier.run_kernel kernel_init kernel_step cl_status (Z.of_nat m) kernel d3)
    (λ d', calls d' = calls d ++ Fourier.dispatch kernel src v dst (2 ^ Z.of_nat m) ∧
           buffer d' dst = kernel_output kernel (2 ^ Z.of_nat m) (buffer d src) v ∧
           ∀ mem, mem ≠ dst → buffer d' mem = buffer d mem).
Proof.
  intros Hm. unfold Fourier.dispatch.
  apply (outcome_after_bind _ [_] [_; _; _] _ _ _ _ (set_arg_after _ _ _ d)).
  intros d1 Hd1.
  assert (calls d1 = calls d ++ [clSetKernelArg kernel 0 (ArgMem src)]) as Hc1
    by (rewrite Hd1; by destruct kernel).
  rewrite <- Hc1.
  apply (outcome_after_bind _ [_] [_; _] _ _ _ _ (set_arg_after _ _ _ d1)).
  intros d2 Hd2.
  assert (calls d2 = calls d1 ++ [clSetKernelArg kernel 1 (ArgUint v)]) as Hc2
    by (rewrite Hd2; by destruct kernel).
  rewrite <- Hc2.
  apply (outcome_after_bind _ [_] [_] _ _ _ _ (set_arg_after _ _ _ d2)).
  intros d3 Hd3.
  assert (calls d3 = calls d2 ++ [clSetKernelArg kernel 2 (ArgMem dst)]) as Hc3
    by (rewrite Hd3; by destruct kernel).
  rewrite <- Hc3.
  unfold Fourier.run_kernel. rewrite sample_count_ok, bind_Ok by done.
  pose proof (backend_after (clEnqueueNDRangeKernel kernel (2 ^ Z.of_nat m)) d3)
    as Hback.
  unfold Fourier.outcome_after in *.
  cbn [Fourier.failure_message] in Hback.
  destruct (first_failure (calls d3) _) as [c|]; [by rewrite Hback|].
  destruct Hback as (d4 & -> & ->). rewrite bind_Ok.
  unfold Fourier.execute. rewrite Hc3, Hc2, Hc1, Hd3, Hd2, Hd1.
  destruct kernel; cbn [Fourier.bind_arg init_args step_args buffer calls].
  all: rewrite lookup_insert_ne, lookup_insert_ne, lookup_insert_eq by done.
  all: rewrite lookup_insert_ne, lookup_insert_eq by done.
  all: rewrite lookup_insert_eq.
  all: eexists; split; [reflexivity|].
  all: cbn [Fourier.write_buffer calls buffer].
  all: split; [by rewrite <- !app_assoc|].
  all: split; [by rewrite decide_True by done|].
  all: intros mem Hmem; by rewrite decide_False by done.
Qed.

Lemma outcome_after_done {A : Type} (h : list cl_call) (a : A) (P : A → Prop) :
  P a → outcome_after h [] (Ok a) P.
Proof. intros Ha. unfold Fourier.outcome_after. cbn. eauto. Qed.

Lemma load_after (m : nat) (mem : cl_mem) (buf : list cl_float2) (d : device) :
  (m ≤ 30)%nat → size buf = 2 ^ Z.of_nat m →
  outcome_after (calls d) [clEnqueueWriteBuffer mem (2 ^ Z.of_nat m * 8) buf]
    (Fourier.load cl_status (Z.of_nat m) mem buf d)
    (λ d', calls d' = calls d ++ [clEnqueueWriteBuffer mem (2 ^ Z.of_nat m * 8) buf] ∧
           buffer d' mem = buf ∧ ∀ mem', mem' ≠ mem → buffer d' mem' = buffer d mem').
Proof.
  intros Hm Hsize. unfold Fourier.load.
  rewrite sample_count_ok, bind_Ok, Hsize, Z.eqb_refl by done.
  unfold assert. rewrite bind_Ok, byte_count_ok, bind_Ok by done.
  apply (outcome_after_pure _ _ _ _ _ _
           (backend_after (clEnqueueWriteBuffer mem (2 ^ Z.of_nat m * 8) buf) d)).
  intros d' ->. cbn [Fourier.write_buffer calls buffer].
  split; [done|]. split; [by rewrite decide_True|].
  intros mem' Hne. by rewrite decide_False.
Qed.

Lemma store_after (m : nat) (mem : cl_mem) (d : device) :
  (m ≤ 30)%nat →
  outcome_after (calls d) [clEnqueueReadBuffer mem (2 ^ Z.of_nat m * 8)]
    (Fourier.store cl_status (Z.of_nat m) mem d)
    (λ rd, rd.1 = buffer d mem ∧
           calls rd.2 = calls d ++ [clEnqueueReadBuffer mem (2 ^ Z.of_nat m * 8)]).
Proof.
  intros Hm. unfold Fourier.store. rewrite byte_count_ok, bind_Ok by done.
  apply (outcome_after_pure _ _ _ _ _ _
           (backend_after (clEnqueueReadBuffer mem (2 ^ Z.of_nat m * 8)) d)).
  by intros d' ->.
Qed.

(** Download, [clFinish] and the conversion into the caller's array. *)
Lemma download_after (m : nat) (mem : cl_mem) (dst : list Complex) (d : device) :
  (m ≤ 30)%nat → length (buffer d mem) = length dst →
  outcome_after (calls d)
    [clEnqueueReadBuffer mem (2 ^ Z.of_nat m * 8); clFinish]
    (rd ← Fourier.store cl_status (Z.of_nat m) mem d;
     d ← Fourier.finish cl_status rd.2;
     dst ← convert_to_complex dst rd.1 (size rd.1);
     Ok (dst, d))
    (λ r, r.1 = (λ v, c_mk v.1 v.2) <$> buffer d mem ∧
          calls r.2 = calls d
                      ++ [clEnqueueReadBuffer mem (2 ^ Z.of_nat m * 8); clFinish]).
Proof.
  intros Hm Hlen.
  apply (outcome_after_bind _ [_] [_] _ _ _ _ (store_after m mem d Hm)).
  intros [buf d1] (Hbuf & Hc1). cbn [fst snd] in *. rewrite <- Hc1.
  apply (outcome_after_bind _ [_] [] _ _ _ _ (backend_after clFinish d1)).
  intros d2 ->. rewrite convert_to_complex_run, bind_Ok by (by rewrite Hbuf).
  apply outcome_after_done. cbn [fst snd calls].
  by rewrite Hbuf, Hc1, <- app_assoc.
Qed.

(** The stage loop under any backend. *)
Lemma fft_loop_after (m : nat) :
  (m ≤ 30)%nat →
  ∀ (r j fuel : nat) (d : device),
    (j + r = m)%nat → (r ≤ fuel)%nat →
    outcome_after (calls d) (Fourier.step_dispatches (2 ^ Z.of_nat m) j r)
      (Fourier.fft_loop kernel_init kernel_step cl_status fuel (Z.of_nat m)
         (Fourier.ping_pong j) (Fourier.ping_pong (S j)) (2 ^ Z.of_nat j) d)
      (λ yd, yd.1 = Fourier.ping_pong m ∧
             calls yd.2 = calls d ++ Fourier.step_dispatches (2 ^ Z.of_nat m) j r ∧
             buffer yd.2 (Fourier.ping_pong m)
             = staged (2 ^ Z.of_nat m) (buffer d (Fourier.ping_pong j)) j r).
Proof.
  intros Hm. induction r as [|r IH]; intros j fuel d Hj Hfuel.
  - assert (j = m) as -> by lia.
    destruct fuel; cbn [Fourier.fft_loop];
      rewrite sample_count_ok, bind_Ok, Z.eqb_refl by done;
      apply outcome_after_done; cbn [fst snd];
      (split; [done|]); (split; [|done]);
      unfold Fourier.step_dispatches; cbn; by rewrite app_nil_r.
  - destruct fuel as [|fuel]; [lia|]. cbn [Fourier.fft_loop].
    rewrite sample_count_ok, bind_Ok by done.
    assert ((2 ^ Z.of_nat j =? 2 ^ Z.of_nat m) = false) as ->.
    { apply Z.eqb_neq. intros Heq. apply Z.pow_inj_r in Heq; lia. }
    rewrite step_dispatches_cons. unfold Fourier.step.
    apply (outcome_after_bind _ _ _ _ _ _ _
             (dispatch_after m m_step_kernel (Fourier.ping_pong j)
                (Fourier.ping_pong (S j)) (2 ^ Z.of_nat j) d Hm)).
    intros d1 (Hc1 & Hout1 & Hkeep1). rewrite <- Hc1, shiftl_1.
    assert (wrap32 (2 * 2 ^ Z.of_nat j) = 2 ^ Z.of_nat (S j)) as ->.
    { replace (Z.of_nat (S j)) with (Z.of_nat j + 1) by lia.
      rewrite Z.pow_add_r, Z.pow_1_r by lia.
      pose proof (pow2_bound j 29 ltac:(lia)).
      unfold wrap32. rewrite Z.mod_small; lia. }
    rewrite <- (ping_pong_swap j).
    apply (outcome_after_weaken _ _ _ _ _ (IH (S j) fuel d1 ltac:(lia) ltac:(lia))).
    intros yd (Hy & Hc & Hout). split; [done|]. split.
    + by rewrite Hc, Hc1, <- app_assoc.
    + rewrite Hout, Hout1. reflexivity.
Qed.

(** The full transform under any backend. *)
Lemma fft_after (m fuel : nat) (spectrum signal : list Complex) (d : device) :
  (m ≤ 30)%nat → (m ≤ fuel)%nat →
  size signal = 2 ^ Z.of_nat m → size spectrum = 2 ^ Z.of_nat m →
  let n := 2 ^ Z.of_nat m in
  let x_buffer := (λ z, (c_real z, c_imag z)) <$> signal in
  let y := staged n (kernel_output m_init_kernel n x_buffer (Z.of_nat m)) 0 m in
  outcome_after (calls d) (Fourier.transform_calls m x_buffer)
    (Fourier.fft kernel_init kernel_step cl_status fuel (Z.of_nat m)
       spectrum signal d)
    (λ r, r.1 = (λ v, c_mk v.1 v.2) <$> y ∧
          calls r.2 = calls d ++ Fourier.transform_calls m x_buffer).
Proof.
  intros Hm Hfuel Hsignal Hspectrum n x_buffer y.
  pose proof (pow2_bound m 30 Hm) as Hn.
  assert (size x_buffer = 2 ^ Z.of_nat m) as Hx.
  { unfold x_buffer, size. rewrite length_fmap. exact Hsignal. }
  unfold Fourier.fft, Fourier.transform_calls.
  rewrite !sample_count_ok, bind_Ok by done.
  rewrite <- Hsignal, to_float2_vector_run, bind_Ok, Hsignal. fold x_buffer.
  apply (outcome_after_bind _ _ _ _ _ _ _ (load_after m m_x_mem x_buffer d Hm Hx)).
  intros d1 (Hc1 & Hb1 & Hk1). rewrite <- Hc1.
  assert (wrap32 (Z.of_nat m) = Z.of_nat m) as ->.
  { unfold wrap32. rewrite Z.mod_small; lia. }
  unfold Fourier.init.
  apply (outcome_after_bind _ _ _ _ _ _ _
           (dispatch_after m m_init_kernel m_x_mem m_y1_mem (Z.of_nat m) d1 Hm)).
  intros d2 (Hc2 & Hb2 & Hk2). rewrite <- Hc2.
  apply (outcome_after_bind _ _ _ _ _ _ _
           (fft_loop_after m Hm m 0 fuel d2 ltac:(lia) Hfuel)).
  intros [mem d3] (Hy & Hc3 & Hb3). cbn [fst snd] in *. subst mem.
  rewrite <- Hc3, bind_Ok.
  assert (buffer d3 (Fourier.ping_pong m) = y) as Hbuf.
  { rewrite Hb3. change (Fourier.ping_pong 0) with m_y1_mem.
    by rewrite Hb2, Hb1. }
  apply (outcome_after_weaken _ _ _ _ _
           (download_after m (Fourier.ping_pong m) spectrum d3 Hm
              ltac:(rewrite Hbuf; unfold y;
                    rewrite (staged_length kernel_init kernel_step);
                    [unfold size in Hspectrum; lia
                    |apply (kernel_output_length kernel_init kernel_step m_init_kernel)]))).
  intros r (Hr & Hcr). split; [by rewrite Hr, Hbuf|].
  rewrite Hcr, Hc3, Hc2, Hc1. by rewrite <- !app_assoc.
Qed.

(** X10. Whatever the backend answers, the full transform on [2^m]
    samples either finds every call of its protocol answered with
    [CL_SUCCESS] and returns the buffer written last, or stops at the first
    call that fails, with the [fatal] text of that kind of call; it never
    ends in a failed assertion, an out-of-range access or a loop that runs
    on. *)
Theorem fourier_fft_fail_stop (m fuel : nat) (spectrum signal : list Complex)
    (d : device) :
  (m ≤ 30)%nat → (m ≤ fuel)%nat →
  size signal = 2 ^ Z.of_nat m → size spectrum = 2 ^ Z.of_nat m →
  let n := 2 ^ Z.of_nat m in
  let x_buffer := (λ z, (c_real z, c_imag z)) <$> signal in
  let y := staged n (kernel_output m_init_kernel n x_buffer (Z.of_nat m)) 0 m in
  match first_failure (calls d) (Fourier.transform_calls m x_buffer) with
  | None =>
      ∃ d', Fourier.fft kernel_init kernel_step cl_status fuel (Z.of_nat m)
              spectrum signal d
            = Ok ((λ v, c_mk v.1 v.2) <$> y, d') ∧
            calls d' = calls d ++ Fourier.transform_calls m x_buffer
  | Some c =>
      Fourier.fft kernel_init kernel_step cl_status fuel (Z.of_nat m)
        spectrum signal d
      = Fatal (Fourier.failure_message c) ∧
      c ∈ Fourier.transform_calls m x_buffer
  end.
Proof.
  intros Hm Hfuel Hsignal Hspectrum n x_buffer y.
  pose proof (fft_after m fuel spectrum signal d Hm Hfuel Hsignal Hspectrum)
    as Hafter.
  cbv zeta in Hafter. fold n x_buffer y in Hafter.
  unfold Fourier.outcome_after in Hafter.
  destruct (first_failure (calls d) (Fourier.transform_calls m x_buffer))
    as [c|] eqn:Hfirst.
  - split; [done|].
    clear -Hfirst. revert Hfirst. generalize (calls d) as h.
    induction (Fourier.transform_calls m x_buffer) as [|c' cs IH]; intros h;
      cbn [Fourier.first_failure]; [done|].
    destruct (cl_status h c').
    + intros Hc. right. by apply (IH (h ++ [c'])).
    + intros [= ->]. by left.
  - destruct Hafter as ([res d'] & Hrun & Hres & Hcalls). cbn [fst snd] in *.
    exists d'. by rewrite Hrun, Hres.
Qed.

Lemma init_host_after (m : nat) (dst src : list Complex) (d : device) :
  (m ≤ 30)%nat → size src = 2 ^ Z.of_nat m → size dst = 2 ^ Z.of_nat m →
  let n := 2 ^ Z.of_nat m in
  let buf := (λ z, (c_real z, c_imag z)) <$> src in
  outcome_after (calls d) (Fourier.init_host_calls m buf)
    (Fourier.init_host kernel_init kernel_step cl_status (Z.of_nat m) dst src d)
    (λ r, r.1 = (λ v, c_mk v.1 v.2)
                  <$> kernel_output m_init_kernel n buf (Z.of_nat m) ∧
          calls r.2 = calls d ++ Fourier.init_host_calls m buf).
Proof.
  intros Hm Hsrc Hdst n buf.
  pose proof (pow2_bound m 30 Hm) as Hn.
  assert (size buf = 2 ^ Z.of_nat m) as Hbuf.
  { unfold buf, size. rewrite length_fmap. exact Hsrc. }
  assert (∀ kernel v, length (kernel_output kernel n buf v) = length dst) as Hlen.
  { intros kernel v. rewrite (kernel_output_length kernel_init kernel_step).
    unfold size in Hdst. lia. }
  unfold Fourier.init_host, Fourier.init_host_calls.
  rewrite !sample_count_ok, bind_Ok by done.
  rewrite <- Hsrc, to_float2_vector_run, bind_Ok, Hsrc. fold buf.
  apply (outcome_after_bind _ _ _ _ _ _ _ (load_after m m_x_mem buf d Hm Hbuf)).
  intros d1 (Hc1 & Hb1 & Hk1). rewrite <- Hc1.
  assert (wrap32 (Z.of_nat m) = Z.of_nat m) as ->.
  { unfold wrap32. rewrite Z.mod_small; lia. }
  unfold Fourier.init.
  apply (outcome_after_bind _ _ _ _ _ _ _
           (dispatch_after m m_init_kernel m_x_mem m_y1_mem (Z.of_nat m) d1 Hm)).
  intros d2 (Hc2 & Hb2 & Hk2). rewrite <- Hc2, bind_Ok.
  apply (outcome_after_weaken _ _ _ _ _
           (download_after m m_y1_mem dst d2 Hm
              ltac:(rewrite Hb2, Hb1; apply Hlen))).
  intros r (Hr & Hcr). split; [by rewrite Hr, Hb2, Hb1|].
  rewrite Hcr, Hc2, Hc1. by rewrite <- !app_assoc.
Qed.

Lemma step_host_after (m : nat) (dst src : list Complex) (B : Z) (d : device) :
  (m ≤ 30)%nat → size src = 2 ^ Z.of_nat m → size dst = 2 ^ Z.of_nat m →
  0 ≤ B < 2 ^ 32 →
  let n := 2 ^ Z.of_nat m in
  let buf := (λ z, (c_real z, c_imag z)) <$> src in
  outcome_after (calls d) (Fourier.step_host_calls m buf B)
    (Fourier.step_host kernel_init kernel_step cl_status (Z.of_nat m) dst src B d)
    (λ r, r.1 = (λ v, c_mk v.1 v.2) <$> kernel_output m_step_kernel n buf B ∧
          calls r.2 = calls d ++ Fourier.step_host_calls m buf B).
Proof.
  intros Hm Hsrc Hdst HB. revert Hm Hsrc Hdst.
  intros Hm Hsrc Hdst n buf.
  pose proof (pow2_bound m 30 Hm) as Hn.
  assert (size buf = 2 ^ Z.of_nat m) as Hbuf.
  { unfold buf, size. rewrite length_fmap. exact Hsrc. }
  assert (∀ kernel v, length (kernel_output kernel n buf v) = length dst) as Hlen.
  { intros kernel v. rewrite (kernel_output_length kernel_init kernel_step).
    unfold size in Hdst. lia. }
  unfold Fourier.step_host, Fourier.step_host_calls.
  rewrite !sample_count_ok, bind_Ok by done.
  rewrite <- Hsrc, to_float2_vector_run, bind_Ok, Hsrc. fold buf.
  apply (outcome_after_bind _ _ _ _ _ _ _ (load_after m m_y1_mem buf d Hm Hbuf)).
  intros d1 (Hc1 & Hb1 & Hk1). rewrite <- Hc1.
  assert (wrap32 B = B) as ->.
  { unfold wrap32. rewrite Z.mod_small; lia. }
  unfold Fourier.step.
  apply (outcome_after_bind _ _ _ _ _ _ _
           (dispatch_after m m_step_kernel m_y1_mem m_y2_mem B d1 Hm)).
  intros d2 (Hc2 & Hb2 & Hk2). rewrite <- Hc2, bind_Ok.
  apply (outcome_after_weaken _ _ _ _ _
           (download_after m m_y2_mem dst d2 Hm
              ltac:(rewrite Hb2, Hb1; apply Hlen))).
  intros r (Hr & Hcr). split; [by rewrite Hr, Hb2, Hb1|].
  rewrite Hcr, Hc2, Hc1. by rewrite <- !app_assoc.
Qed.

(** X11. The two single-dispatch entry points, whatever the backend
    answers: [Fourier::init] uploads the source to X, dispatches [Init]
    from X into Y1 and downloads Y1; [Fourier::step] uploads the source to
    Y1, dispatches [Step] with [B] from Y1 into Y2 and downloads Y2.  Each
    returns the kernel's output for the uploaded samples, or stops at its
    first failed call with the [fatal] text of that call. *)
Theorem fourier_single_dispatch (m : nat) (dst src : list Complex) (B : Z)
    (d : device) :
  (m ≤ 30)%nat → size src = 2 ^ Z.of_nat m → size dst = 2 ^ Z.of_nat m →
  0 ≤ B < 2 ^ 32 →
  let n := 2 ^ Z.of_nat m in
  let buf := (λ z, (c_real z, c_imag z)) <$> src in
  match first_failure (calls d) (Fourier.init_host_calls m buf) with
  | None =>
      ∃ d', Fourier.init_host kernel_init kernel_step cl_status (Z.of_nat m) dst src d
            = Ok ((λ v, c_mk v.1 v.2)
                    <$> kernel_output m_init_kernel n buf (Z.of_nat m), d') ∧
            calls d' = calls d ++ Fourier.init_host_calls m buf
  | Some c =>
      Fourier.init_host kernel_init kernel_step cl_status (Z.of_nat m) dst src d
      = Fatal (Fourier.failure_message c)
  end ∧
  match first_failure (calls d) (Fourier.step_host_calls m buf B) with
  | None =>
      ∃ d', Fourier.step_host kernel_init kernel_step cl_status (Z.of_nat m)
              dst src B d
            = Ok ((λ v, c_mk v.1 v.2) <$> kernel_output m_step_kernel n buf B, d') ∧
            calls d' = calls d ++ Fourier.step_host_calls m buf B
  | Some c =>
      Fourier.step_host kernel_init kernel_step cl_status (Z.of_nat m) dst src B d
      = Fatal (Fourier.failure_message c)
  end.
Proof.
  intros Hm Hsrc Hdst HB n buf.
  pose proof (init_host_after m dst src d Hm Hsrc Hdst) as Hinit.
  pose proof (step_host_after m dst src B d Hm Hsrc Hdst HB) as Hstep.
  cbv zeta in Hinit, Hstep. fold n buf in Hinit, Hstep.
  unfold Fourier.outcome_after in Hinit, Hstep. split.
  - destruct (first_failure (calls d) (Fourier.init_host_calls m buf)); [done|].
    destruct Hinit as ([res d'] & Hrun & Hres & Hcalls). cbn [fst snd] in *.
    exists d'. by rewrite Hrun, Hres.
  - destruct (first_failure (calls d) (Fourier.step_host_calls m buf B)); [done|].
    destruct Hstep as ([res d'] & Hrun & Hres & Hcalls). cbn [fst snd] in *.
    exists d'. by rewrite Hrun, Hres.
Qed.

End FailStop.

Lemma fourier_fft_fail_stop_witness :
  Fourier.fft (H:=symbolic) copy_kernel copy_kernel read_fails 1 1
    [sample 0; sample 0] [sample 1; sample 2] fresh_device
  = Fatal "Could not read buffer.".
Proof.
  pose proof (fourier_fft_fail_stop (H:=symbolic) copy_kernel copy_kernel
                read_fails 1 1 [sample 0; sample 0] [sample 1; sample 2]
                fresh_device ltac:(lia) ltac:(lia) eq_refl eq_refl) as Hthm.
  cbv zeta in Hthm.
  destruct (Fourier.first_failure read_fails _ _) as [c|] eqn:Hfirst in Hthm;
    vm_compute in Hfirst; [|discriminate Hfirst].
  injection Hfirst as <-. exact (proj1 Hthm).
Defined.

Lemma fourier_single_dispatch_witness :
  Fourier.step_host (H:=symbolic) copy_kernel copy_kernel read_fails 1
    [sample 0; sample 0] [sample 1; sample 2] 1 fresh_device
  = Fatal "Could not read buffer.".
Proof.
  exact (proj2 (fourier_single_dispatch (H:=symbolic) copy_kernel
                  copy_kernel read_fails 1 [sample 0; sample 0]
                  [sample 1; sample 2] 1 fresh_device ltac:(lia) eq_refl eq_refl
                  ltac:(lia))).
Defined.

(** ** The host side of the dispatcher, with a backend that succeeds *)

Section HostPipeline.
Context `{FloatOps}.
Variable kernel_init : list cl_float2 → Z → Z → cl_float2.
Variable kernel_step : list cl_float2 → Z → Z → cl_float2.
Variable cl_status : list cl_call → cl_call → bool.
Hypothesis cl_success : ∀ h c, cl_status h c = true.

Local Abbreviation kernel_output := (Fourier.kernel_output kernel_init kernel_step).
Local Abbreviation staged := (Fourier.staged kernel_init kernel_step).
Local Abbreviation to_float2 := (fmap (M:=list) (λ z : Complex, (c_real z, c_imag z))).
Local Abbreviation of_float2 := (fmap (M:=list) (λ v : Float * Float, c_mk v.1 v.2)).

Lemma first_failure_success (cs : list cl_call) :
  ∀ h, Fourier.first_failure cl_status h cs = None.
Proof.
  induction cs as [|c cs IH]; intros h; cbn [Fourier.first_failure]; [done|].
  by rewrite cl_success.
Qed.

Lemma outcome_after_success {A : Type} (h cs : list cl_call) (o : outcome A)
    (P : A → Prop) :
  Fourier.outcome_after cl_status h cs o P → ∃ a, o = Ok a ∧ P a.
Proof. unfold Fourier.outcome_after. by rewrite first_failure_success. Qed.

Lemma init_host_run (m : nat) (dst src : list Complex) (d : device) :
  (m ≤ 30)%nat → size src = 2 ^ Z.of_nat m → size dst = 2 ^ Z.of_nat m →
  ∃ d', Fourier.init_host kernel_init kernel_step cl_status (Z.of_nat m) dst src d
        = Ok (of_float2 (kernel_output m_init_kernel (2 ^ Z.of_nat m)
                           (to_float2 src) (Z.of_nat m)), d').
Proof.
  intros Hm Hsrc Hdst.
  destruct (outcome_after_success _ _ _ _
              (init_host_after kernel_init kernel_step cl_status m dst src d
                 Hm Hsrc Hdst)) as ([r d'] & Hrun & Hr & _).
  cbn [fst] in Hr. subst r. by exists d'.
Qed.

Lemma step_host_run (m : nat) (dst src : list Complex) (B : Z) (d : device) :
  (m ≤ 30)%nat → size src = 2 ^ Z.of_nat m → size dst = 2 ^ Z.of_nat m →
  0 ≤ B < 2 ^ 32 →
  ∃ d', Fourier.step_host kernel_init kernel_step cl_status (Z.of_nat m) dst src B d
        = Ok (of_float2 (kernel_output m_step_kernel (2 ^ Z.of_nat m)
                           (to_float2 src) B), d').
Proof.
  intros Hm Hsrc Hdst HB.
  destruct (outcome_after_success _ _ _ _
              (step_host_after kernel_init kernel_step cl_status m dst src B d
                 Hm Hsrc Hdst HB)) as ([r d'] & Hrun & Hr & _).
  cbn [fst] in Hr. subst r. by exists d'.
Qed.

Lemma fft_host_run (m fuel : nat) (spectrum signal : list Complex) (d : device) :
  (m ≤ 30)%nat → (m ≤ fuel)%nat →
  size signal = 2 ^ Z.of_nat m → size spectrum = 2 ^ Z.of_nat m →
  ∃ d', Fourier.fft kernel_init kernel_step cl_status fuel (Z.of_nat m)
          spectrum signal d
        = Ok (of_float2 (staged (2 ^ Z.of_nat m)
                           (kernel_output m_init_kernel (2 ^ Z.of_nat m)
                              (to_float2 signal) (Z.of_nat m)) 0 m), d').
Proof.
  intros Hm Hfuel Hsignal Hspectrum.
  destruct (outcome_after_success _ _ _ _
              (fft_after kernel_init kernel_step cl_status m fuel spectrum signal
                 d Hm Hfuel Hsignal Hspectrum)) as ([r d'] & Hrun & Hr & _).
  cbn [fst] in Hr. subst r. by exists d'.
Qed.

Section Pairs.
(** A complex number built from two floats has these as its parts. *)
Hypothesis real_mk : ∀ a b : Float, c_real (c_mk a b) = a.
Hypothesis imag_mk : ∀ a b : Float, c_imag (c_mk a b) = b.

Lemma to_of_float2 (buf : list cl_float2) : to_float2 (of_float2 buf) = buf.
Proof.
  rewrite <- list_fmap_compose. rewrite <- (list_fmap_id buf) at 2.
  apply list_fmap_ext. intros i [a b] _. cbn. by rewrite real_mk, imag_mk.
Qed.

(** The host calling [Fourier::step] stage after stage computes the
    stages the device runs back to back. *)
Lemma step_host_chain_run (m : nat) :
  (m ≤ 30)%nat →
  ∀ (count first : nat) (buf : list cl_float2) (d : device),
    (first + count ≤ m)%nat → length buf = Z.to_nat (2 ^ Z.of_nat m) →
    ∃ d', Fourier.step_host_chain kernel_init kernel_step cl_status (Z.of_nat m)
            first count (of_float2 buf) d
          = Ok (of_float2 (staged (2 ^ Z.of_nat m) buf first count), d').
Proof.
  intros Hm. pose proof (pow2_bound m 30 Hm) as Hn.
  induction count as [|count IH]; intros first buf d Hcount Hbuf.
  { exists d. reflexivity. }
  cbn [Fourier.step_host_chain].
  assert (size (of_float2 buf) = 2 ^ Z.of_nat m) as Hsize.
  { unfold size. rewrite length_fmap. lia. }
  pose proof (pow2_bound first 29 ltac:(lia)).
  destruct (step_host_run m (new_signal (size (of_float2 buf))) (of_float2 buf)
              (2 ^ Z.of_nat first) d) as (d1 & ->); [done|done| |lia|].
  { unfold new_signal, size. rewrite length_replicate, Nat2Z.id.
    rewrite length_fmap. lia. }
  rewrite bind_Ok. cbn [fst snd]. rewrite to_of_float2.
  destruct (IH (S first)
              (kernel_output m_step_kernel (2 ^ Z.of_nat m) buf (2 ^ Z.of_nat first))
              d1) as (d' & ->); [lia| |by exists d'].
  apply (kernel_output_length kernel_init kernel_step m_step_kernel).
Qed.

(** X12. With a backend that succeeds, the full transform returns what
    the host gets by calling [Fourier::init] on the signal and then
    [Fourier::step] with [B = 1, 2, ..., N/2], each on the result of the call
    before: keeping the stages on the device between the single upload and
    the single download changes nothing in the result. *)
Theorem fourier_fft_is_init_then_steps (m fuel : nat)
    (spectrum dst signal : list Complex) (d d0 : device) :
  (m ≤ 30)%nat → (m ≤ fuel)%nat → size signal = 2 ^ Z.of_nat m →
  size spectrum = 2 ^ Z.of_nat m → size dst = 2 ^ Z.of_nat m →
  ∃ y0 y d1 d2 d',
    Fourier.init_host kernel_init kernel_step cl_status (Z.of_nat m) dst signal d0
    = Ok (y0, d1) ∧
    Fourier.step_host_chain kernel_init kernel_step cl_status (Z.of_nat m)
      0 m y0 d1
    = Ok (y, d2) ∧
    Fourier.fft kernel_init kernel_step cl_status fuel (Z.of_nat m)
      spectrum signal d
    = Ok (y, d').
Proof.
  intros Hm Hfuel Hsignal Hspectrum Hdst.
  destruct (init_host_run m dst signal d0 Hm Hsignal Hdst) as (d1 & Hinit).
  destruct (step_host_chain_run m Hm m 0
              (kernel_output m_init_kernel (2 ^ Z.of_nat m) (to_float2 signal)
                 (Z.of_nat m)) d1) as (d2 & Hchain); [lia| |].
  { apply (kernel_output_length kernel_init kernel_step m_init_kernel). }
  destruct (fft_host_run m fuel spectrum signal d Hm Hfuel Hsignal Hspectrum)
    as (d' & Hfft).
  eexists _, _, d1, d2, d'. by rewrite Hinit, Hchain, Hfft.
Qed.

(** X13. Crossing the host/device boundary loses nothing when a complex
    number is the pair of its parts: [to_float2_vector] followed by
    [convert] gives the signal back, and [convert] followed by
    [to_float2_vector] gives the buffer back, whatever the destination
    arrays held. *)
Theorem convert_round_trip (v dst : list Complex) (buf : list cl_float2) :
  (∀ z : Complex, c_mk (c_real z) (c_imag z) = z) →
  length dst = length v →
  (∃ b, to_float2_vector v (size v) = Ok b ∧ length b = length v ∧
        convert_to_complex dst b (size b) = Ok v) ∧
  (∃ w, convert_to_complex (new_signal (size buf)) buf (size buf) = Ok w ∧
        length w = length buf ∧
        to_float2_vector w (size w) = Ok buf).
Proof.
  intros Heta Hdst. split.
  - exists (to_float2 v). rewrite to_float2_vector_run.
    split; [done|]. split; [by rewrite length_fmap|].
    rewrite convert_to_complex_run by (by rewrite length_fmap).
    f_equal. rewrite <- list_fmap_compose. rewrite <- (list_fmap_id v) at 2.
    apply list_fmap_ext. intros i z _. cbn. apply Heta.
  - exists (of_float2 buf). rewrite convert_to_complex_run.
    2:{ unfold new_signal, size. by rewrite length_replicate, Nat2Z.id. }
    split; [done|]. split; [by rewrite length_fmap|].
    by rewrite to_float2_vector_run, to_of_float2.
Qed.

End Pairs.

Lemma sample_count_assert (m : nat) (signal : list Complex) {A : Type}
    (k : outcome A) :
  (m ≤ 30)%nat → size signal ≠ 2 ^ Z.of_nat m →
  (n ← Fourier.sample_count (Z.of_nat m);
   _ ← assert (n =? size signal); k) = AssertFail.
Proof.
  intros Hm Hne. rewrite sample_count_ok, bind_Ok by done.
  by assert ((2 ^ Z.of_nat m =? size signal) = false) as -> by lia.
Qed.

(** The stage the step test expects: block size 256 over
    [(N / 128) / 2] blocks. *)
Lemma step_test_expected (m : nat) (signal : list Complex) :
  size signal = 2 ^ Z.of_nat m →
  fft_step signal 0 (size signal / 128 / 2) (2 * 128)
  = Ok (if decide (8 ≤ m)%nat then stage forward_combine 256 signal else signal).
Proof.
  intros Hsize. rewrite fft_step_loop, Hsize. case_decide as Hm.
  - replace (Z.of_nat m) with (Z.of_nat (m - 8) + 8) by lia.
    rewrite Z.pow_add_r by lia. change (2 ^ 8) with (2 * 128).
    rewrite Z.mul_assoc, Z.div_mul by done. rewrite Z.div_mul by done.
    pose proof (pow2_bound (m - 8) (m - 8) ltac:(lia)).
    apply stage_loop_whole; [lia|lia|].
    rewrite Hsize. replace (Z.of_nat m) with (Z.of_nat (m - 8) + 8) at 1 by lia.
    by rewrite Z.pow_add_r by lia.
  - assert (2 ^ Z.of_nat m / 128 / 2 = 0) as ->; [|done].
    rewrite Z.div_div by lia. apply Z.div_small.
    pose proof (pow2_bound m 7 ltac:(lia)). change (2 ^ Z.of_nat 7) with 128 in *.
    lia.
Qed.

(** X14. The three tests of the dispatcher, with a backend that succeeds.
    Each aborts on its first assertion when the signal does not hold
    [2^m] samples.  Otherwise each returns the residual between the host
    computation and the downloaded device buffer: the bit-reversal
    permutation against [Init]; the stage of block size 256 against
    [Step] with [B = 128]; the host transform against the full device
    transform.  Below 256 samples the step test dispatches no host stage
    at all and compares [Step] with the unchanged signal. *)
Theorem dispatcher_tests (m fuel : nat) (signal : list Complex) (d : device) :
  (m ≤ 30)%nat → (m ≤ fuel)%nat →
  let n := 2 ^ Z.of_nat m in
  let buf := to_float2 signal in
  (size signal ≠ n →
     Fourier.prop_fftcl_init_equals_fft_init kernel_init kernel_step cl_status
       fuel (Z.of_nat m) signal d = AssertFail ∧
     Fourier.prop_fftcl_step_equals_fft_step kernel_init kernel_step cl_status
       (Z.of_nat m) signal d = AssertFail ∧
     Fourier.prop_fftcl_equals_fft kernel_init kernel_step cl_status
       fuel (Z.of_nat m) signal d = AssertFail) ∧
  (size signal = n →
     (∃ d', Fourier.prop_fftcl_init_equals_fft_init kernel_init kernel_step
              cl_status fuel (Z.of_nat m) signal d
            = Ok (residual_spec (bit_reversal m signal)
                    (of_float2 (kernel_output m_init_kernel n buf (Z.of_nat m))),
                  d')) ∧
     (∃ d', Fourier.prop_fftcl_step_equals_fft_step kernel_init kernel_step
              cl_status (Z.of_nat m) signal d
            = Ok (residual_spec
                    (if decide (8 ≤ m)%nat
                     then stage forward_combine 256 signal else signal)
                    (of_float2 (kernel_output m_step_kernel n buf 128)),
                  d')) ∧
     (∃ d', Fourier.prop_fftcl_equals_fft kernel_init kernel_step cl_status
              fuel (Z.of_nat m) signal d
            = Ok (residual_spec (fft_spec m signal)
                    (of_float2 (staged n (kernel_output m_init_kernel n buf
                                            (Z.of_nat m)) 0 m)),
                  d'))).
Proof.
  intros Hm Hfuel n buf. split.
  - intros Hne.
    unfold Fourier.prop_fftcl_init_equals_fft_init,
      Fourier.prop_fftcl_step_equals_fft_step, Fourier.prop_fftcl_equals_fft.
    by rewrite !sample_count_assert by done.
  - intros Hsize. subst n.
    assert (size (new_signal (size signal)) = size signal) as Hnew.
    { unfold new_signal, size at 1. rewrite length_replicate.
      unfold size in *. lia. }
    assert (length (new_signal (size signal)) = length signal) as Hnewlen.
    { unfold size in *. lia. }
    assert (∀ kernel v,
              length (of_float2 (kernel_output kernel (size signal) buf v))
                        = length signal) as Hout.
    { intros kernel v. rewrite length_fmap.
      rewrite (kernel_output_length kernel_init kernel_step).
      unfold size. lia. }
    split; [|split].
    + unfold Fourier.prop_fftcl_init_equals_fft_init.
      rewrite sample_count_ok, bind_Ok by done.
      rewrite <- Hsize, Z.eqb_refl. unfold assert at 1. rewrite bind_Ok.
      unfold fft_init. rewrite Hnew.
      rewrite (bit_reversal_loop fuel m), bind_Ok by (done || lia).
      destruct (init_host_run m (new_signal (size signal)) signal d)
        as (d' & Hrun); [done|done|congruence|].
      rewrite <- Hsize in Hrun. rewrite Hrun.
      rewrite bind_Ok. cbn [fst snd].
      rewrite error_run, bind_Ok; [by exists d'|].
      by rewrite bit_reversal_length, Hout.
    + unfold Fourier.prop_fftcl_step_equals_fft_step.
      rewrite sample_count_ok, bind_Ok by done.
      rewrite <- Hsize, Z.eqb_refl. unfold assert. rewrite !bind_Ok.
      rewrite (step_test_expected m), bind_Ok by done.
      destruct (step_host_run m (new_signal (size signal)) signal 128 d)
        as (d' & Hrun); [done|done|congruence|lia|].
      rewrite <- Hsize in Hrun. rewrite Hrun.
      rewrite bind_Ok. cbn [fst snd].
      rewrite error_run, bind_Ok; [by exists d'|].
      rewrite Hout. case_decide; [apply stage_length|done].
    + unfold Fourier.prop_fftcl_equals_fft.
      rewrite sample_count_ok, bind_Ok by done.
      rewrite <- Hsize, Z.eqb_refl. unfold assert at 1. rewrite bind_Ok.
      rewrite (fft_structure m), bind_Ok by (done || lia).
      fold (fft_spec m signal).
      destruct (fft_host_run m fuel (new_signal (size signal)) signal d)
        as (d' & Hrun); [done|done|done|congruence|].
      rewrite <- Hsize in Hrun. rewrite Hrun.
      rewrite bind_Ok. cbn [fst snd].
      rewrite error_run, bind_Ok; [by exists d'|].
      rewrite fft_spec_length, length_fmap.
      rewrite (staged_length kernel_init kernel_step);
        [unfold size; lia|].
      apply (kernel_output_length kernel_init kernel_step m_init_kernel).
Qed.

End HostPipeline.

Lemma fourier_fft_is_init_then_steps_witness :
  ∃ y0 y d1 d2 d',
    Fourier.init_host (H:=componentwise) copy_pkernel copy_pkernel (λ _ _, true) 1
      [psample 0 0; psample 0 0] [psample 1 2; psample 3 4] fresh_pdevice
    = Ok (y0, d1) ∧
    Fourier.step_host_chain (H:=componentwise) copy_pkernel copy_pkernel
      (λ _ _, true) 1 0 1 y0 d1
    = Ok (y, d2) ∧
    Fourier.fft (H:=componentwise) copy_pkernel copy_pkernel (λ _ _, true) 1 1
      [psample 0 0; psample 0 0] [psample 1 2; psample 3 4] fresh_pdevice
    = Ok (y, d').
Proof.
  exact (fourier_fft_is_init_then_steps (H:=componentwise) copy_pkernel
           copy_pkernel (λ _ _, true) (λ _ _, eq_refl)
           (λ _ _, eq_refl) (λ _ _, eq_refl) 1 1
           [psample 0 0; psample 0 0] [psample 0 0; psample 0 0]
           [psample 1 2; psample 3 4] fresh_pdevice fresh_pdevice
           ltac:(lia) ltac:(lia) eq_refl eq_refl eq_refl).
Defined.

Lemma convert_round_trip_witness :
  ∃ b, to_float2_vector (H:=componentwise) [psample 1 2; psample 3 4] 2 = Ok b ∧
       convert_to_complex [psample 0 0; psample 0 0] b (size b)
       = Ok [psample 1 2; psample 3 4].
Proof.
  destruct (convert_round_trip (H:=componentwise) (λ _ _, eq_refl)
              (λ _ _, eq_refl) [psample 1 2; psample 3 4]
              [psample 0 0; psample 0 0] []
              (λ z, match z with (a, b) => eq_refl end) eq_refl)
    as ((b & Hb & _ & Hback) & _).
  exists b. exact (conj Hb Hback).
Defined.

Lemma dispatcher_tests_witness :
  Fourier.prop_fftcl_equals_fft (H:=symbolic) copy_kernel copy_kernel
    (λ _ _, true) 1 1 [sample 1; sample 2; sample 3] fresh_device
  = AssertFail ∧
  ∃ r d', Fourier.prop_fftcl_step_equals_fft_step (H:=symbolic) copy_kernel
            copy_kernel (λ _ _, true) 1 [sample 1; sample 2] fresh_device
          = Ok (r, d').
Proof.
  split.
  - destruct (dispatcher_tests (H:=symbolic) copy_kernel copy_kernel
                (λ _ _, true) (λ _ _, eq_refl) 1 1
                [sample 1; sample 2; sample 3] fresh_device
                ltac:(lia) ltac:(lia)) as (Hbad & _).
    exact (proj2 (proj2 (Hbad ltac:(done)))).
  - destruct (dispatcher_tests (H:=symbolic) copy_kernel copy_kernel
                (λ _ _, true) (λ _ _, eq_refl) 1 1
                [sample 1; sample 2] fresh_device
                ltac:(lia) ltac:(lia)) as (_ & Hgood).
    destruct (Hgood eq_refl) as (_ & (d' & Hstep) & _).
    eexists _, d'. exact Hstep.
Defined.
